(** * BUSCO_phylogenomics: command-line front end and marker bookkeeping

    A shallow embedding of [BUSCO_phylogenomics.py].  The script builds an
    [argparse] parser, parses [sys.argv], prints three start-up messages,
    and validates the input and output directories before the pipeline
    proper starts.

    The development has four parts:
    - [Argparse]: the fragment of CPython 3.11's [argparse] that an
      optionals-only parser exercises (classification of argument strings,
      option lookup with abbreviations and explicit [=] arguments, the
      [store], [store_true] and [help] actions, the required check);
    - [Cli]: the parser that [main] builds, one entry per [add_argument];
    - [Script]: [main] itself over an explicit world (argument vector,
      file system, clock, output streams) with Python's exceptions;
    - [Markers] and [Supermatrix]: the marker selector and the
      concatenation stage, which the specification describes. *)

From Stdlib Require Import Ascii String QArith.
From stdpp Require Import gmap strings list fin_maps fin_sets.

Local Open Scope string_scope.
Local Open Scope list_scope.

(** ** Python values that reach the argument namespace *)

(** A Python float: a finite value, given by the rational it denotes, an
    infinity or a NaN. *)
Inductive pyfloat :=
  | Finite (q : Q)
  | Infinity (negative : bool)
  | NaN.

#[warnings="-register-all"]
Inductive pyval :=
  | PNone
  | PBool (b : bool)
  | PInt (z : Z)
  | PFloat (x : pyfloat)
  | PStr (s : string)
  | PList (l : list pyval).

(** ** String helpers used by the option matcher *)

Module Str.

(** [arg_string.split('=', 1)], for a string that contains ['=']. *)
Fixpoint split_eq (s : string) : option (string * string) :=
  match s with
  | EmptyString => None
  | String c rest =>
      if Ascii.eqb c "="%char then Some (EmptyString, rest)
      else match split_eq rest with
           | Some (a, b) => Some (String c a, b)
           | None => None
           end
  end.

(** [c in s] *)
Fixpoint contains (c : ascii) (s : string) : bool :=
  match s with
  | EmptyString => false
  | String d rest => Ascii.eqb c d || contains c rest
  end.

(** [s.startswith(p)] *)
Definition startswith (s p : string) : bool := String.prefix p s.

Definition is_digit (c : ascii) : bool :=
  (48 <=? nat_of_ascii c)%nat && (nat_of_ascii c <=? 57)%nat.

Fixpoint drop_digits (s : string) : string :=
  match s with
  | EmptyString => EmptyString
  | String c rest => if is_digit c then drop_digits rest else s
  end.

(** Where the regular expression anchor [$] matches: at the end of the
    string, or just before a final newline. *)
Definition at_end (s : string) : bool :=
  match s with
  | EmptyString => true
  | String c EmptyString => Ascii.eqb c (ascii_of_nat 10)
  | _ => false
  end.

(** At least one digit, then the end: [\d+$]. *)
Definition digits1_end (s : string) : bool :=
  negb (String.eqb (drop_digits s) s) && at_end (drop_digits s).

(** [_negative_number_matcher = '^-\d+$|^-\d*\.\d+$'] *)
Definition negative_number_like (s : string) : bool :=
  match s with
  | String c rest =>
      Ascii.eqb c "-"%char &&
      (digits1_end rest ||
       match drop_digits rest with
       | String d frac => Ascii.eqb d "."%char && digits1_end frac
       | EmptyString => false
       end)
  | EmptyString => false
  end.

(** [s.lstrip('-')] *)
Fixpoint lstrip_dashes (s : string) : string :=
  match s with
  | String c rest => if Ascii.eqb c "-"%char then lstrip_dashes rest else s
  | EmptyString => EmptyString
  end.

(** [s.replace('-', '_')] *)
Fixpoint dashes_to_underscores (s : string) : string :=
  match s with
  | String c rest =>
      String (if Ascii.eqb c "-"%char then "_"%char else c) (dashes_to_underscores rest)
  | EmptyString => EmptyString
  end.

End Str.

(** ** argparse *)

Module Argparse.

(** [argparse.SUPPRESS] *)
Definition SUPPRESS : string := "==SUPPRESS==".

(** The [type=] converters the script uses. *)
Inductive arg_type := TStr | TInt | TFloat.

(** The action classes the script uses: [_StoreAction] (with [nargs=None]),
    [_StoreTrueAction] and the [_HelpAction] every parser adds. *)
Inductive action_kind := Store (ty : arg_type) | StoreTrue | Help.

(** An [Action] object.  [default = None] stands for [SUPPRESS]: no
    attribute is created in the namespace. *)
Record action := Action {
  option_strings : list string;
  dest : string;
  kind : action_kind;
  required : bool;
  default : option pyval;
}.

(** [_get_optional_kwargs]: the destination is inferred from the first
    long option string, else from the first option string. *)
Definition is_long (s : string) : bool := Str.startswith s "--".

Definition infer_dest (opts : list string) : string :=
  let o := match List.find is_long opts with
           | Some l => l
           | None => List.hd EmptyString opts
           end in
  Str.dashes_to_underscores (Str.lstrip_dashes o).

(** [add_argument(..., type=ty, required=r, default=d)]; [dest] is the
    keyword when given. *)
Definition add_store (opts : list string) (ty : arg_type) (req : bool)
    (dst : option string) (dflt : pyval) : action :=
  {| option_strings := opts;
     dest := match dst with Some d => d | None => infer_dest opts end;
     kind := Store ty; required := req; default := Some dflt |}.

(** [add_argument(..., action="store_true")] *)
Definition add_store_true (opts : list string) : action :=
  {| option_strings := opts; dest := infer_dest opts;
     kind := StoreTrue; required := false; default := Some (PBool false) |}.

(** The [-h/--help] action of [ArgumentParser(add_help=True)]. *)
Definition help_action : action :=
  {| option_strings := ["-h"; "--help"]; dest := SUPPRESS;
     kind := Help; required := false; default := None |}.

(** [_get_action_name] for an optional: ['/'.join(option_strings)]. *)
Definition action_name (a : action) : string :=
  String.concat "/" (option_strings a).

(** What parsing can report through [parser.error] (exit status 2). *)
Inductive parse_error :=
  | AmbiguousOption (arg : string) (matches : list string)
  | ExpectedOneArgument (name : string)
  | IgnoredExplicitArgument (name : string) (arg : string)
  | InvalidValue (name : string) (ty : arg_type) (value : string)
  | RequiredMissing (names : list string)
  | UnrecognizedArguments (extras : list string).

(** Outcome of a parsing step: a value, the help action's exit, or an
    error. *)
Inductive result (A : Type) :=
  | Parsed (a : A)
  | HelpExit
  | ParseError (e : parse_error).
Arguments Parsed {A} a.
Arguments HelpExit {A}.
Arguments ParseError {A} e.

Definition bind {A B} (r : result A) (k : A -> result B) : result B :=
  match r with
  | Parsed a => k a
  | HelpExit => HelpExit
  | ParseError e => ParseError e
  end.

#[global] Instance result_ret : MRet result := @Parsed.
#[global] Instance result_bind : MBind result := λ A B k r, bind r k.
#[global] Instance result_fmap : FMap result :=
  λ A B f r, bind r (λ a, Parsed (f a)).

(** [(action, option_string, explicit_arg)] as [_parse_optional] returns
    it; the action is [None] for a string that looks like an option the
    parser does not have. *)
Definition option_tuple : Type := option action * string * option string.

(** One character of [arg_strings_pattern]. *)
Inductive pattern :=
  | PatO (t : option_tuple)
  | PatA
  | PatDash.

(** The namespace under construction, [seen_actions] (by destination,
    which identifies an action of a parser with distinct destinations)
    and [extras]. *)
Record pstate := PState {
  ns : gmap string pyval;
  seen : gset string;
  extras : list string;
}.

Definition setattr (d : string) (v : pyval) (st : pstate) : pstate :=
  {| ns := <[d := v]> (ns st); seen := seen st; extras := extras st |}.

Definition mark_seen (a : action) (st : pstate) : pstate :=
  {| ns := ns st; seen := {[dest a]} ∪ seen st; extras := extras st |}.

Definition add_extra (s : string) (st : pstate) : pstate :=
  {| ns := ns st; seen := seen st; extras := extras st ++ [s] |}.

(** [option_string[1] not in prefix_chars] *)
Definition single_dash (o : string) : bool :=
  match o with
  | String _ (String c _) => negb (Ascii.eqb c "-"%char)
  | _ => false
  end.

(** [arg_strings.remove('--')]: drops the first occurrence. *)
Fixpoint remove_first_dashes (l : list string) : list string :=
  match l with
  | [] => []
  | s :: rest => if String.eqb s "--" then rest else s :: remove_first_dashes rest
  end.

(** [hasattr(namespace, d) and default is getattr(namespace, d)] for a
    string default; no two actions of the parser share a destination,
    so the attribute of an action that was not seen is the default
    object itself exactly when it is that string. *)
Definition holds_str (nsp : gmap string pyval) (d s : string) : bool :=
  match nsp !! d with
  | Some (PStr s') => String.eqb s' s
  | _ => false
  end.

(** The names the final loop reports: the required actions of [l] that
    were not seen. *)
Definition missing_required (st : pstate) (l : list action) : list string :=
  List.map action_name
    (filter (λ a, (dest a ∉ seen st) ∧ (required a = true)) l).

Section Parser.

(** Python's builtins [int] and [float] on a string: [None] stands for
    the [ValueError] they raise. *)
Variable int : string -> option Z.
Variable float : string -> option pyfloat.

(** [parser._actions] *)
Variable actions : list action.

(** [parser._option_string_actions], in insertion order. *)
Definition option_string_actions : list (string * action) :=
  flat_map (λ a, List.map (λ o, (o, a)) (option_strings a)) actions.

Definition lookup_option (o : string) : option action :=
  snd <$> List.find (λ p, String.eqb (fst p) o) option_string_actions.

Definition has_negative_number_optionals : bool :=
  existsb (λ p, Str.negative_number_like (fst p)) option_string_actions.

(** [_get_option_tuples], called on a string of at least two
    characters that starts with the prefix character. *)
Definition get_option_tuples (arg : string) : list option_tuple :=
  match arg with
  | String _ (String c1 tail) =>
      if Ascii.eqb c1 "-"%char then
        let '(option_prefix, explicit_arg) :=
          match Str.split_eq arg with
          | Some (p, e) => (p, Some e)
          | None => (arg, None)
          end in
        omap (λ p, if Str.startswith (fst p) option_prefix
                   then Some (Some (snd p), fst p, explicit_arg) else None)
             option_string_actions
      else
        let short_option_prefix := String.substring 0 2 arg in
        let short_explicit_arg := tail in
        omap (λ p, if String.eqb (fst p) short_option_prefix
                   then Some (Some (snd p), fst p, Some short_explicit_arg)
                   else if Str.startswith (fst p) arg
                   then Some (Some (snd p), fst p, None) else None)
             option_string_actions
  | _ => []
  end.

(** [_parse_optional]: [None] means the string is a positional. *)
Definition parse_optional (arg : string) : result (option option_tuple) :=
  match arg with
  | EmptyString => Parsed None
  | String c rest =>
      if negb (Ascii.eqb c "-"%char) then Parsed None else
      match lookup_option arg with
      | Some a => Parsed (Some (Some a, arg, None))
      | None =>
          match rest with
          | EmptyString => Parsed None
          | _ =>
              let by_equals :=
                match Str.split_eq arg with
                | Some (o, e) =>
                    match lookup_option o with
                    | Some a => Some (Some a, o, Some e)
                    | None => None
                    end
                | None => None
                end in
              match by_equals with
              | Some t => Parsed (Some t)
              | None =>
                  match get_option_tuples arg with
                  | (_ :: _ :: _) as ts =>
                      ParseError (AmbiguousOption arg (List.map (λ t, snd (fst t)) ts))
                  | [t] => Parsed (Some t)
                  | [] =>
                      if Str.negative_number_like arg
                         && negb has_negative_number_optionals
                      then Parsed None
                      else if Str.contains " "%char arg then Parsed None
                      else Parsed (Some (None, arg, None))
                  end
              end
          end
      end
  end.

(** The first pass of [_parse_known_args]: every string gets its
    pattern character; everything after ["--"] is an argument. *)
Fixpoint classify (args : list string) : result (list (string * pattern)) :=
  match args with
  | [] => Parsed []
  | a :: rest =>
      if String.eqb a "--"
      then Parsed ((a, PatDash) :: List.map (λ s, (s, PatA)) rest)
      else
        t ← parse_optional a;
        r ← classify rest;
        mret ((a, match t with Some t => PatO t | None => PatA end) :: r)
  end.

(** [_get_value]: apply the action's [type]. *)
Definition get_value (a : action) (s : string) : result pyval :=
  match kind a with
  | Store TInt =>
      match int s with
      | Some z => Parsed (PInt z)
      | None => ParseError (InvalidValue (action_name a) TInt s)
      end
  | Store TFloat =>
      match float s with
      | Some x => Parsed (PFloat x)
      | None => ParseError (InvalidValue (action_name a) TFloat s)
      end
  | _ => Parsed (PStr s)
  end.

Fixpoint get_value_list (a : action) (l : list string) : result (list pyval) :=
  match l with
  | [] => Parsed []
  | s :: rest =>
      v ← get_value a s;
      vs ← get_value_list a rest;
      mret (v :: vs)
  end.

(** [_get_values]: the first ["--"] is stripped; a [nargs=None]
    action with exactly one string gets the converted value, every
    other case produces a list. *)
Definition get_values (a : action) (arg_strings : list string) : result pyval :=
  let arg_strings := remove_first_dashes arg_strings in
  match kind a, arg_strings with
  | Store _, [s] => get_value a s
  | _, _ => PList <$> get_value_list a arg_strings
  end.

(** [take_action], then the action's [__call__]: [store] sets the
    converted value, [store_true] sets [True], [help] prints the help
    text and exits. *)
Definition take_action (a : action) (arg_strings : list string)
    (st : pstate) : result pstate :=
  v ← get_values a arg_strings;
  match kind a with
  | Store _ => mret (setattr (dest a) v (mark_seen a st))
  | StoreTrue => mret (setattr (dest a) (PBool true) (mark_seen a st))
  | Help => HelpExit
  end.

Fixpoint take_actions (l : list (action * list string)) (st : pstate)
    : result pstate :=
  match l with
  | [] => Parsed st
  | (a, arg_strings) :: rest =>
      st' ← take_action a arg_strings st;
      take_actions rest st'
  end.

(** The loop of [consume_optional] while there is an explicit
    argument.  A [store] action takes it as its value.  An action
    without arguments that was given by a single-dash option string
    reads the explicit argument as further single-dash options
    ([-xyz] for [-x -y -z]).  The result is the action tuples
    collected so far and, when the explicit argument was used up by
    flags, the action that takes its arguments from the following
    strings. *)
Fixpoint with_explicit (a : action) (option_string explicit_arg : string)
    {struct explicit_arg}
    : result (list (action * list string) * option action) :=
  match kind a with
  | Store _ => Parsed ([(a, [explicit_arg])], None)
  | _ =>
      match explicit_arg with
      | String c new_explicit_arg =>
          if single_dash option_string then
            let option_string' := String "-" (String c EmptyString) in
            match lookup_option option_string' with
            | Some a' =>
                match new_explicit_arg with
                | EmptyString => Parsed ([(a, [])], Some a')
                | _ =>
                    r ← with_explicit a' option_string' new_explicit_arg;
                    mret ((a, []) :: fst r, snd r)
                end
            | None =>
                ParseError (IgnoredExplicitArgument (action_name a) explicit_arg)
            end
          else ParseError (IgnoredExplicitArgument (action_name a) explicit_arg)
      | EmptyString =>
          ParseError (IgnoredExplicitArgument (action_name a) explicit_arg)
      end
  end.

(** The main loop.  The parser has no positionals, so a string that
    no option takes goes to [extras]; an option string is handled by
    [consume_optional]: a [store] action without explicit argument
    needs the next string to be an argument (pattern [A]). *)
Fixpoint consume (toks : list (string * pattern)) (st : pstate)
    : result pstate :=
  match toks with
  | [] => Parsed st
  | (s, PatA) :: rest | (s, PatDash) :: rest
  | (s, PatO (None, _, _)) :: rest => consume rest (add_extra s st)
  | (s, PatO (Some a, option_string, explicit_arg)) :: rest =>
      match
        match explicit_arg with
        | Some e => with_explicit a option_string e
        | None => Parsed ([], Some a)
        end
      with
      | Parsed (tuples, None) =>
          match take_actions tuples st with
          | Parsed st' => consume rest st'
          | HelpExit => HelpExit
          | ParseError e => ParseError e
          end
      | Parsed (tuples, Some p) =>
          match kind p with
          | Store _ =>
              match rest with
              | (v, PatA) :: rest' =>
                  match take_actions (tuples ++ [(p, [v])]) st with
                  | Parsed st' => consume rest' st'
                  | HelpExit => HelpExit
                  | ParseError e => ParseError e
                  end
              | _ => ParseError (ExpectedOneArgument (action_name p))
              end
          | _ =>
              match take_actions (tuples ++ [(p, [])]) st with
              | Parsed st' => consume rest st'
              | HelpExit => HelpExit
              | ParseError e => ParseError e
              end
          end
      | HelpExit => HelpExit
      | ParseError e => ParseError e
      end
  end.

(** The defaults [parse_known_args] puts in a fresh namespace. *)
Definition add_default (nsp : gmap string pyval) (a : action)
    : gmap string pyval :=
  if String.eqb (dest a) SUPPRESS then nsp
  else match nsp !! dest a, default a with
       | None, Some d => <[dest a := d]> nsp
       | _, _ => nsp
       end.

Definition initial_namespace : gmap string pyval :=
  foldl add_default ∅ actions.

(** The loop after the arguments are consumed: an action that was not
    seen is reported when required; otherwise a string default still
    in the namespace is passed through the action's [type]. *)
Fixpoint check_required (l : list action) (st : pstate)
    (required_actions : list string) : result (pstate * list string) :=
  match l with
  | [] => Parsed (st, required_actions)
  | a :: rest =>
      if bool_decide (dest a ∈ seen st) then check_required rest st required_actions
      else if required a
      then check_required rest st (required_actions ++ [action_name a])
      else
        match default a with
        | Some (PStr d) =>
            if holds_str (ns st) (dest a) d then
              v ← get_value a d;
              check_required rest (setattr (dest a) v st) required_actions
            else check_required rest st required_actions
        | _ => check_required rest st required_actions
        end
  end.

Definition initial_state : pstate :=
  {| ns := initial_namespace; seen := ∅; extras := [] |}.

(** [parse_known_args] *)
Definition parse_known_args (args : list string) : result pstate :=
  toks ← classify args;
  st ← consume toks initial_state;
  r ← check_required actions st [];
  match snd r with
  | [] => mret (fst r)
  | names => ParseError (RequiredMissing names)
  end.

(** [parse_args]: left-over strings are an error. *)
Definition parse_args (args : list string) : result (gmap string pyval) :=
  st ← parse_known_args args;
  match extras st with
  | [] => mret (ns st)
  | argv => ParseError (UnrecognizedArguments argv)
  end.

(** A classified string whose option tuple, if it has one with an
    action, names an action of the parser under one of its option
    strings, and meets [A]. *)
Definition token_ok (A : action -> Prop) (tok : string * pattern) : Prop :=
  match tok.2 with
  | PatO (Some a, o, _) => (o, a) ∈ option_string_actions ∧ A a
  | _ => True
  end.

(** An argument string supplies the option with destination [d]:
    [_parse_optional] resolves it, as written, abbreviated or with an
    explicit argument, to an action with that destination. *)
Definition selects (d arg : string) : Prop :=
  ∃ a o e, parse_optional arg = Parsed (Some (Some a, o, e)) ∧ dest a = d.

Definition supplied (d : string) (args : list string) : Prop :=
  ∃ arg, arg ∈ args ∧ selects d arg.

(** What a [store] action with converter [ty] leaves in the namespace:
    a value of the converter's type, or the empty list that [_get_values]
    produces when the explicit argument is ["--"]. *)
Definition has_type (ty : arg_type) (v : pyval) : Prop :=
  match ty, v with
  | TStr, PStr _ | TInt, PInt _ | TFloat, PFloat _ => True
  | _, PList [] => True
  | _, _ => False
  end.

(** What the action [a] has left in the namespace [nsp], by its class. *)
Definition attribute_ok (a : action) (nsp : gmap string pyval) : Prop :=
  match kind a with
  | Store ty => ∃ v, nsp !! dest a = Some v ∧ has_type ty v
  | StoreTrue => ∃ b, nsp !! dest a = Some (PBool b)
  | Help => True
  end.

(** A string that the first pass takes as an argument (pattern [A]): it
    is not ["--"] and [_parse_optional] does not see an option in it. *)
Definition is_argument (arg : string) : Prop :=
  arg ≠ "--" ∧ parse_optional arg = Parsed None.

End Parser.

End Argparse.

(** ** Readers for plain decimal numerals

    [int] and [float] are parameters of the parser.  To run it on a
    concrete command line, these readers take their place: they agree
    with Python's [int] on an optionally signed run of ASCII digits, and
    with [float] on such a run with an optional fractional part whenever
    the numeral denotes a binary64 value (60, 70, 87.5, ...).  They reject
    every other string. *)

Module Decimal.

Definition digit_value (c : ascii) : Z := Z.of_nat (nat_of_ascii c) - 48.

Fixpoint digits (s : string) (acc : Z) : option Z :=
  match s with
  | EmptyString => Some acc
  | String c rest =>
      if Str.is_digit c then digits rest (10 * acc + digit_value c) else None
  end.

Definition unsigned (s : string) : option Z :=
  match s with
  | EmptyString => None
  | _ => digits s 0
  end.

Definition signed {A} (read : string -> option A) (neg : A -> A)
    (s : string) : option A :=
  match s with
  | String c rest =>
      if Ascii.eqb c "-"%char then neg <$> read rest
      else if Ascii.eqb c "+"%char then read rest
      else read s
  | EmptyString => None
  end.

Definition int : string -> option Z := signed unsigned Z.opp.

Fixpoint split_point (s : string) : string * option string :=
  match s with
  | EmptyString => (EmptyString, None)
  | String c rest =>
      if Ascii.eqb c "."%char then (EmptyString, Some rest)
      else let '(a, b) := split_point rest in (String c a, b)
  end.

Definition unsigned_float (s : string) : option Q :=
  match split_point s with
  | (whole, None) => inject_Z <$> unsigned whole
  | (whole, Some frac) =>
      w ← unsigned whole;
      f ← unsigned frac;
      Some (inject_Z w + inject_Z f / inject_Z (10 ^ Z.of_nat (String.length frac)))%Q
  end.

Definition float (s : string) : option pyfloat :=
  Finite <$> signed unsigned_float Qopp s.

End Decimal.

(** ** The parser of [main] *)

Module Cli.
Import Argparse.

(** The [add_argument] calls of [main], after the help action that
    [ArgumentParser] adds. *)
Definition parser : list action :=
  [ help_action;
    add_store ["-i"; "--input"] TStr true None PNone;
    add_store ["-o"; "--output"] TStr true None PNone;
    add_store ["-t"; "--threads"] TInt true None PNone;
    add_store_true ["--supermatrix_only"];
    add_store_true ["--gene_trees_only"];
    add_store_true ["--nt"];
    add_store ["-psc"; "--percent_single_copy"] TFloat false (Some "psc") (PFloat (Finite 100));
    add_store ["--trimal_strategy"] TStr false (Some "trimal_strategy") (PStr "automated1");
    add_store ["--missing_character"] TStr false (Some "missing_character") (PStr "?");
    add_store ["--gene_tree_program"] TStr false (Some "gene_tree_program") (PStr "fasttree");
    add_store_true ["--busco_version_3"] ].

(** The destinations of the four flags, and the attribute names of the
    namespace, as [vars(args)] shows them. *)
Definition flags : list string :=
  ["supermatrix_only"; "gene_trees_only"; "nt"; "busco_version_3"].


Definition attributes : gset string :=
  list_to_set
    [ "input"; "output"; "threads"; "supermatrix_only"; "gene_trees_only";
      "nt"; "psc"; "trimal_strategy"; "missing_character";
      "gene_tree_program"; "busco_version_3" ].

End Cli.

(** ** The script *)

Module Script.
Import Argparse.

(** *** The world [main] runs in *)

Inductive node :=
  | Directory
  | RegularFile (content : string).

(** What [print_message] is given: string literals and paths,
    [sys.argv], and [vars(args)]. *)
Inductive message_part :=
  | Text (s : string)
  | Argv (l : list string)
  | Vars (d : gmap string pyval).

Inductive output :=
  | Stamped (time : Z) (parts : list message_part)
  | HelpText
  | UsageError (e : parse_error).

(** [clock] gives the successive readings of the system clock and
    [ticks] counts the readings made so far.  The file system maps an
    absolute path to what is there. *)
Record world := World {
  sys_argv : list string;
  fs : gmap string node;
  clock : nat -> Z;
  ticks : nat;
  stdout : list output;
  stderr : list output;
}.

Definition write_stdout (o : output) (w : world) : world :=
  {| sys_argv := sys_argv w; fs := fs w; clock := clock w; ticks := ticks w;
     stdout := stdout w ++ [o]; stderr := stderr w |}.

Definition write_stderr (o : output) (w : world) : world :=
  {| sys_argv := sys_argv w; fs := fs w; clock := clock w; ticks := ticks w;
     stdout := stdout w; stderr := stderr w ++ [o] |}.

Definition tick (w : world) : world :=
  {| sys_argv := sys_argv w; fs := fs w; clock := clock w; ticks := S (ticks w);
     stdout := stdout w; stderr := stderr w |}.

(** *** Exceptions and the run monad *)

Inductive exn :=
  | SystemExit (code : option Z)
  | NameError (name : string)
  | AttributeError (name : string)
  | TypeError.

Inductive outcome (A : Type) :=
  | Return (a : A)
  | Raise (e : exn).
Arguments Return {A} a.
Arguments Raise {A} e.

Definition M (A : Type) : Type := world -> outcome A * world.

#[global] Instance M_ret : MRet M := λ A a w, (Return a, w).
#[global] Instance M_bind : MBind M := λ A B k m w,
  match m w with
  | (Return a, w') => k a w'
  | (Raise e, w') => (Raise e, w')
  end.

Definition raise {A} (e : exn) : M A := λ w, (Raise e, w).


(** [sys.exit(arg)] *)
Definition sys_exit (arg : option Z) : M unit := raise (SystemExit arg).

(** [if b: body] *)
Definition when (b : bool) (body : M unit) : M unit :=
  if b then body else mret tt.

(** [os.path.isdir] on an absolute path. *)
Definition is_directory (files : gmap string node) (path : string) : bool :=
  match files !! path with
  | Some Directory => true
  | _ => false
  end.

Definition isdir (path : string) : M bool := λ w, (Return (is_directory (fs w) path), w).

(** [getattr(args, name)] *)
Definition getattr (args : gmap string pyval) (name : string) : M pyval :=
  match args !! name with
  | Some v => mret v
  | None => raise (AttributeError name)
  end.

(** Modelled from the spec: [print_message], which [main] calls for every
    message and whose definition is not in the source file.  The
    specification has every diagnostic printed as a timestamped message:
    the call reads the clock and writes one line to standard output, the
    time stamp followed by the arguments. *)
Definition stamp (parts : list message_part) (w : world) : world :=
  write_stdout (Stamped (clock w (ticks w)) parts) (tick w).

Definition print_message (parts : list message_part) : M unit := λ w,
  (Return tt, stamp parts w).

(** The world after a run of messages, and the lines they add. *)
Definition stamp_all (msgs : list (list message_part)) (w : world) : world :=
  foldl (λ w parts, stamp parts w) w msgs.


(** What the three start-up calls are given. *)
Definition startup_lines (args : gmap string pyval) (w : world)
    : list (list message_part) :=
  [ [Text "Starting BUSCO Phylogenomics Pipeline"];
    [Text "User provided arguments:"; Argv (sys_argv w)];
    [Text "Parsed arguments:"; Vars args] ].

Definition input_not_found (input_directory : string) : list message_part :=
  [Text "ERROR. Input BUSCO directory"; Text input_directory; Text "not found"].

Definition output_exists (working_directory : string) : list message_part :=
  [Text "ERROR. Output directory"; Text working_directory; Text "already exists"].

(** The names the statements of the source file bind at module level:
    its imports and [main]. *)
Definition fragment_globals : gset string :=
  list_to_set
    [ "argparse"; "mp"; "listdir"; "chdir"; "mkdir"; "system";
      "abspath"; "basename"; "isdir"; "join"; "sys";
      "SeqIO"; "Seq"; "SeqRecord"; "gmtime"; "strftime"; "main" ].

(** Modelled from the spec: the globals of the complete script, which
    defines the message helper as well.  No statement of the source
    file makes this binding. *)
Definition module_globals : gset string :=
  {["print_message"]} ∪ fragment_globals.

Section Run.

Variable int : string -> option Z.
Variable float : string -> option pyfloat.

(** [os.path.abspath], for the working directory of the process. *)
Variable abspath : string -> string.

(** The module's global names. *)
Variable globals : gset string.

(** A call [print_message(...)]: the global is looked up first. *)
Definition call_print_message (parts : list message_part) : M unit :=
  if bool_decide ("print_message" ∈ globals) then print_message parts
  else raise (NameError "print_message").

(** [abspath(v)] raises [TypeError] unless [v] is a string. *)
Definition call_abspath (v : pyval) : M string :=
  match v with
  | PStr s => mret (abspath s)
  | _ => raise TypeError
  end.

(** [parser.parse_args()]: the help action prints the help text and
    exits with status 0, an error prints the usage and the message on
    standard error and exits with status 2. *)
Definition parse_args : M (gmap string pyval) := λ w,
  match Argparse.parse_args int float Cli.parser (tail (sys_argv w)) with
  | Parsed args => (Return args, w)
  | HelpExit => (Raise (SystemExit (Some 0%Z)), write_stdout HelpText w)
  | ParseError e => (Raise (SystemExit (Some 2%Z)), write_stderr (UsageError e) w)
  end.

(** The three start-up messages. *)
Definition startup_messages (args : gmap string pyval) : M unit :=
  _ ← call_print_message [Text "Starting BUSCO Phylogenomics Pipeline"];
  argv ← (λ w, (Return (sys_argv w), w));
  _ ← call_print_message [Text "User provided arguments:"; Argv argv];
  call_print_message [Text "Parsed arguments:"; Vars args].

(** From [input_directory = abspath(args.input)] to the end of the
    source file. *)
Definition check_directories (args : gmap string pyval) : M unit :=
  input ← getattr args "input";
  input_directory ← call_abspath input;
  output ← getattr args "output";
  working_directory ← call_abspath output;
  threads ← getattr args "threads";
  input_found ← isdir input_directory;
  _ ← when (negb input_found)
        (_ ← call_print_message (input_not_found input_directory);
         sys_exit None);
  output_found ← isdir working_directory;
  when output_found
    (_ ← call_print_message (output_exists working_directory);
     sys_exit None).

(** [main()], as far as the source file goes: a run that returns
    passes on to the pipeline proper. *)
Definition main : M unit :=
  args ← parse_args;
  _ ← startup_messages args;
  check_directories args.

End Run.

(** [os.path.abspath] for a path that is either absolute or made of
    plain components below the working directory [cwd]. *)
Definition abspath_in (cwd path : string) : string :=
  if Str.startswith path "/" then path else cwd +:+ "/" +:+ path.

(** A run from [/data] with the required options, at a given state of
    the file system. *)
Definition sample_world (files : gmap string node) : world :=
  {| sys_argv := ["BUSCO_phylogenomics.py"; "-i"; "busco_runs";
                  "-o"; "results"; "-t"; "4"];
     fs := files;
     clock := λ n, (1700000000 + Z.of_nat n)%Z;
     ticks := 0;
     stdout := [];
     stderr := [] |}.

(** A run that asks for help before an argument that [int] refuses. *)
Definition help_world : world :=
  {| sys_argv := ["BUSCO_phylogenomics.py"; "--help"; "-t"; "many"];
     fs := ∅;
     clock := λ n, (1700000000 + Z.of_nat n)%Z;
     ticks := 0;
     stdout := [];
     stderr := [] |}.


(** Both directories of the sample run exist. *)
Definition sample_files : gmap string node :=
  {[ "/data/busco_runs" := Directory; "/data/results" := Directory ]}.

Definition sample_args : gmap string pyval :=
  list_to_map
    [ ("input", PStr "busco_runs"); ("output", PStr "results");
      ("threads", PInt 4); ("supermatrix_only", PBool false);
      ("gene_trees_only", PBool false); ("nt", PBool false);
      ("psc", PFloat (Finite 100)); ("trimal_strategy", PStr "automated1");
      ("missing_character", PStr "?"); ("gene_tree_program", PStr "fasttree");
      ("busco_version_3", PBool false) ].

End Script.

(** ** Marker selection *)

Module Markers.

(** Modelled from the spec: the output of the BUSCO result scanner, which
    is not in the source file.  Every species is one directory of the
    input directory, identified by its name, with the set of marker
    identifiers scored complete and single-copy in it; the list is in
    the order in which the input directory is listed. *)
Abbreviation scan := (list (string * gset string)).

(** Modelled from the spec: the occupancy record, the mapping from a
    marker to the set of species possessing it, computed once per run
    from the scan.  Each species adds itself to the entry of each of its
    markers. *)
Definition species_entries (sp : string * gset string)
    : gmap string (gset string) :=
  gset_to_gmap {[sp.1]} sp.2.

Definition merge_holders (a b : gset string) : option (gset string) :=
  Some (a ∪ b).

Definition record_species (sp : string * gset string)
    (occ : gmap string (gset string)) : gmap string (gset string) :=
  union_with merge_holders (species_entries sp) occ.

Definition occupancy (sc : scan) : gmap string (gset string) :=
  foldr record_species ∅ sc.

(** Modelled from the spec: the marker selector, which is not in the
    source file.  Per marker it computes the fraction of species in which
    the marker is single-copy complete, and it retains the markers whose
    fraction is at least the threshold, a percentage, expressed as a
    fraction. *)
Definition presence_fraction (holders total : nat) : Q :=
  inject_Z (Z.of_nat holders) / inject_Z (Z.of_nat total).

Definition meets_threshold (psc : Q) (total : nat) (holders : gset string)
    : bool :=
  Qle_bool (psc / 100) (presence_fraction (size holders) total).

Definition select_markers (psc : Q) (sc : scan) : gset string :=
  dom (filter (λ entry, meets_threshold psc (length sc) entry.2 = true)
              (occupancy sc)).

(** The quantities the selection is specified by, read off the scan:
    the markers that occur at all, and the number of species in which a
    marker is single-copy complete. *)
Definition all_markers (sc : scan) : gset string := ⋃ (sc.*2).

Definition occurrence_count (m : string) (sc : scan) : nat :=
  length (filter (λ sp, m ∈ sp.2) sc).

(** The species of the scan that have the marker. *)
Definition holders (m : string) (sc : scan) : gset string :=
  list_to_set ((filter (λ sp, m ∈ sp.2) sc).*1).

(** Two listings of one input directory with three species. *)
Definition sample_scan : scan :=
  [ ("Homo_sapiens", {[ "1001at2759"; "1003at2759" ]});
    ("Mus_musculus", {[ "1001at2759"; "1003at2759"; "1010at2759" ]});
    ("Danio_rerio", {[ "1001at2759" ]}) ].

Definition sample_scan_relisted : scan :=
  [ ("Mus_musculus", {[ "1001at2759"; "1003at2759"; "1010at2759" ]});
    ("Homo_sapiens", {[ "1001at2759"; "1003at2759" ]});
    ("Danio_rerio", {[ "1001at2759" ]}) ].

End Markers.

(** ** Concatenation into the supermatrix *)

Module Supermatrix.

(** Modelled from the spec: the trimmed alignment of one retained marker
    as the trimming tool leaves it, which the concatenation stage (not in
    the source file) reads: the alignment's column width and one row
    for each species that has the marker. *)
Record alignment := Alignment {
  marker : string;
  width : nat;
  rows : gmap string (list ascii);
}.

(** An alignment is rectangular: each row has the alignment's width. *)
Definition rectangular (a : alignment) : Prop :=
  ∀ sp row, rows a !! sp = Some row → length row = width a.

(** Modelled from the spec: the supermatrix.  A species absent from a
    marker gets the missing character repeated to that marker's trimmed
    width; the row of a species is the concatenation of its blocks in
    the order of the retained markers, the same for every species. *)
Definition padding (missing : ascii) (a : alignment) : list ascii :=
  replicate (width a) missing.

Definition block (missing : ascii) (sp : string) (a : alignment) : list ascii :=
  default (padding missing a) (rows a !! sp).

Definition row (missing : ascii) (alns : list alignment) (sp : string)
    : list ascii :=
  concat (block missing sp <$> alns).

Definition supermatrix (missing : ascii) (species : list string)
    (alns : list alignment) : list (string * list ascii) :=
  (λ sp, (sp, row missing alns sp)) <$> species.

(** Column at which the [k]-th marker starts, and the total width. *)
Definition offset (alns : list alignment) (k : nat) : nat :=
  sum_list (width <$> take k alns).

Definition total_width (alns : list alignment) : nat :=
  sum_list (width <$> alns).

End Supermatrix.

(** * Properties *)

(** ** The option matcher and the parsing loop *)

Module ArgparseFacts.
Import Argparse.

Section Matcher.

Variable actions : list action.

#[local] Abbreviation option_string_actions := (option_string_actions actions).
#[local] Abbreviation lookup_option := (lookup_option actions).
#[local] Abbreviation parse_optional := (parse_optional actions).
#[local] Abbreviation classify := (classify actions).

Lemma option_string_actions_elem o a :
  (o, a) ∈ option_string_actions -> a ∈ actions ∧ o ∈ option_strings a.
Proof.
  unfold Argparse.option_string_actions.
  rewrite list_elem_of_In, in_flat_map.
  intros (b & Hb & Hin). apply in_map_iff in Hin as (o' & Heq & Ho).
  inversion Heq; subst. by rewrite !list_elem_of_In.
Qed.

Lemma lookup_option_elem o a :
  lookup_option o = Some a -> (o, a) ∈ option_string_actions.
Proof.
  unfold Argparse.lookup_option.
  destruct (List.find _ _) as [[o' a']|] eqn:Hfind; simpl; [|done].
  intros [= ->]. apply find_some in Hfind as [Hin Heq].
  apply String.eqb_eq in Heq. simpl in Heq. subst o'.
  by apply list_elem_of_In.
Qed.

Lemma get_option_tuples_elem arg t :
  t ∈ get_option_tuples actions arg ->
  ∃ a, t.1.1 = Some a ∧ (t.1.2, a) ∈ option_string_actions.
Proof.
  unfold get_option_tuples.
  destruct arg as [|c0 [|c1 tail]]; try (intros H; by apply elem_of_nil in H).
  destruct (Ascii.eqb c1 "-").
  - destruct (Str.split_eq _) as [[p e]|];
      intros ([o a] & Hin & Hsome)%list_elem_of_omap; simpl in Hsome;
      destruct (Str.startswith o _); simplify_eq; eauto.
  - intros ([o a] & Hin & Hsome)%list_elem_of_omap; simpl in Hsome.
    destruct (String.eqb o _); [simplify_eq; eauto|].
    destruct (Str.startswith o _); simplify_eq; eauto.
Qed.

Lemma parse_optional_elem arg a o e :
  parse_optional arg = Parsed (Some (Some a, o, e)) ->
  (o, a) ∈ option_string_actions.
Proof.
  unfold Argparse.parse_optional.
  destruct arg as [|c rest]; [done|].
  destruct (negb _); [done|].
  destruct (lookup_option (String c rest)) as [a'|] eqn:Hexact.
  { intros [= <- <- <-]. by apply lookup_option_elem. }
  destruct rest as [|c1 rest]; [done|].
  destruct (Str.split_eq _) as [[o' e']|] eqn:Hsplit.
  - destruct (lookup_option o') as [a'|] eqn:Heq.
    { intros [= <- <- <-]. by apply lookup_option_elem. }
    destruct (get_option_tuples _ _) as [|t [|t' ts]] eqn:Htuples.
    + repeat case_match; intros [=].
    + intros [= ->].
      destruct (get_option_tuples_elem (String c (String c1 rest)) (Some a, o, e))
        as (a' & Ha & Hin); [rewrite Htuples; apply list_elem_of_here|].
      simpl in *. by simplify_eq.
    + done.
  - destruct (get_option_tuples _ _) as [|t [|t' ts]] eqn:Htuples.
    + repeat case_match; intros [=].
    + intros [= ->].
      destruct (get_option_tuples_elem (String c (String c1 rest)) (Some a, o, e))
        as (a' & Ha & Hin); [rewrite Htuples; apply list_elem_of_here|].
      simpl in *. by simplify_eq.
    + done.
Qed.

Lemma classify_ok (A : action -> Prop) args toks :
  (∀ arg a o e, arg ∈ args ->
     parse_optional arg = Parsed (Some (Some a, o, e)) -> A a) ->
  classify args = Parsed toks ->
  Forall (token_ok actions A) toks.
Proof.
  revert toks. induction args as [|arg args IH]; intros toks HA; simpl.
  { intros [= <-]. constructor. }
  destruct (String.eqb arg "--").
  { intros [= <-]. constructor; [done|].
    apply Forall_forall. intros tok Hin. apply list_elem_of_In in Hin.
    apply in_map_iff in Hin as (x & <- & _). done. }
  destruct (parse_optional arg) as [t| |] eqn:Harg; simpl; [|done..].
  destruct (classify args) as [r| |] eqn:Hrest; simpl; [|done..].
  intros [= <-]. constructor.
  - destruct t as [[[[a|] o] e]|]; unfold token_ok; simpl; try done.
    split; [by eapply parse_optional_elem|].
    eapply HA; [apply list_elem_of_here|done].
  - apply IH; [|done]. intros ???? Hin. apply HA. by apply list_elem_of_further.
Qed.

Lemma classify_cons arg args t toks :
  arg ≠ "--" ->
  parse_optional arg = Parsed t ->
  classify args = Parsed toks ->
  classify (arg :: args)
  = Parsed ((arg, match t with Some t => PatO t | None => PatA end) :: toks).
Proof.
  intros Hne Hopt Hcl. simpl.
  destruct (String.eqb arg "--") eqn:Heq.
  { by apply String.eqb_eq in Heq. }
  by rewrite Hopt, Hcl.
Qed.

End Matcher.

Section Loop.

Variable int : string -> option Z.
Variable float : string -> option pyfloat.
Variable actions : list action.

#[local] Abbreviation option_string_actions := (option_string_actions actions).
#[local] Abbreviation classify := (classify actions).
#[local] Abbreviation consume := (consume int float actions).
#[local] Abbreviation take_action := (take_action int float).
#[local] Abbreviation take_actions := (take_actions int float).

Lemma take_actions_help a tl st :
  kind a = Help -> take_actions ((a, []) :: tl) st = HelpExit.
Proof.
  intros Hk. simpl. unfold Argparse.take_action, get_values. simpl.
  by rewrite Hk.
Qed.

Lemma take_actions_app_help a tl more st :
  kind a = Help -> take_actions (((a, []) :: tl) ++ more) st = HelpExit.
Proof. intros Hk. by rewrite <-app_comm_cons, take_actions_help. Qed.

Lemma setattr_id d v st :
  ns st !! d = Some v -> setattr d v st = st.
Proof.
  intros Hd. destruct st as [n sn ex]. unfold setattr. simpl in *.
  by rewrite insert_id.
Qed.

Lemma holds_str_lookup nsp d s :
  holds_str nsp d s = true -> nsp !! d = Some (PStr s).
Proof.
  unfold holds_str. destruct (nsp !! d) as [[]|]; try done.
  by intros ->%String.eqb_eq.
Qed.

(** What a successful action does to the state. *)
Lemma take_action_parsed a l st st' :
  take_action a l st = Parsed st' ->
  ∃ v, st' = setattr (dest a) v (mark_seen a st)
       ∧ (kind a = StoreTrue -> v = PBool true)
       ∧ ∀ st2, take_action a l st2
                = Parsed (setattr (dest a) v (mark_seen a st2)).
Proof.
  unfold Argparse.take_action.
  destruct (get_values _ _ a l) as [v| |]; simpl; [|done..].
  destruct (kind a); [| |done]; intros [= <-];
    [exists v | exists (PBool true)]; split_and!; done.
Qed.

(** When the string defaults of the parser are fixed points of their
    converters, the final loop changes nothing and collects the names
    of the required actions that were not seen. *)
Lemma check_required_eq l st names :
  (∀ a s, a ∈ l -> default a = Some (PStr s) ->
          get_value int float a s = Parsed (PStr s)) ->
  check_required int float l st names
  = Parsed (st, names ++ missing_required st l).
Proof.
  revert names. induction l as [|a l IH]; intros names Hconv; simpl.
  { by rewrite app_nil_r. }
  assert (∀ names, check_required int float l st names
            = Parsed (st, names ++ missing_required st l))
    as IH'.
  { intros ?. apply IH. intros ????. apply Hconv; [|done].
    by apply list_elem_of_further. }
  unfold missing_required in *.
  case_bool_decide as Hseen.
  { rewrite filter_cons_False by (intros [Hn _]; exact (Hn Hseen)). apply IH'. }
  destruct (required a) eqn:Hreq.
  { rewrite filter_cons_True by done. rewrite IH'. simpl.
    by rewrite <-app_assoc. }
  rewrite filter_cons_False by (intros [_ Hr]; congruence).
  destruct (default a) as [[| | | |d|]|] eqn:Hdflt; try apply IH'.
  destruct (holds_str _ _ _) eqn:Hholds; [|apply IH'].
  rewrite (Hconv a d); [|apply list_elem_of_here|done]. simpl.
  rewrite setattr_id; [apply IH'|]. by apply holds_str_lookup.
Qed.

(** Every flag of the parser has long option strings only, so the
    one action that a single-dash option string can give without
    arguments is the help action. *)
Hypothesis flags_long :
  ∀ o a, (o, a) ∈ option_string_actions ->
         kind a = StoreTrue -> single_dash o = false.

Lemma with_explicit_parsed a o e tuples pending :
  (o, a) ∈ option_string_actions ->
  with_explicit actions a o e = Parsed (tuples, pending) ->
  (∃ ty, kind a = Store ty ∧ tuples = [(a, [e])] ∧ pending = None)
  ∨ (kind a = Help ∧ ∃ tl, tuples = (a, []) :: tl).
Proof.
  intros Hin. destruct e as [|c e]; simpl.
  - destruct (kind a) eqn:Hk; [|done..]. intros [= <- <-]. left; eauto.
  - destruct (kind a) eqn:Hk.
    + intros [= <- <-]. left; eauto.
    + by rewrite (flags_long o a).
    + destruct (single_dash o); [|done].
      destruct (lookup_option _ _) as [a'|]; [|done].
      destruct e as [|c' e].
      * intros [= <- <-]. right; eauto.
      * destruct (with_explicit _ _ _ _) as [r| |]; simpl; [|done..].
        intros [= <- <-]. right; eauto.
Qed.

(** One option string of a successful run takes one action, on the
    explicit argument, on the next argument, or on nothing, and the
    loop goes on behind what the action took. *)
Lemma consume_option_step s a o e rest st st' :
  (o, a) ∈ option_string_actions ->
  consume ((s, PatO (Some a, o, e)) :: rest) st = Parsed st' ->
  ∃ arg_strings rest1,
    (rest1 = rest ∨ ∃ v, rest = (v, PatA) :: rest1) ∧
    ∀ st2, consume ((s, PatO (Some a, o, e)) :: rest) st2
           = take_action a arg_strings st2 ≫= consume rest1.
Proof.
  intros Hin. simpl. destruct e as [e|].
  - destruct (with_explicit actions a o e) as [[tuples pending]| |] eqn:Hwe;
      [|done..].
    destruct (with_explicit_parsed _ _ _ _ _ Hin Hwe)
      as [(ty & Hk & -> & ->)|(Hk & tl & ->)].
    + intros _. exists [e], rest. split; [by left|].
      intros st2. simpl. by destruct (take_action a [e] st2).
    + destruct pending as [p|].
      * destruct (kind p).
        -- destruct rest as [|[v [| |]] rest']; try done.
           by rewrite take_actions_app_help.
        -- by rewrite take_actions_app_help.
        -- by rewrite take_actions_app_help.
      * by rewrite take_actions_help.
  - destruct (kind a) eqn:Hk.
    + destruct rest as [|[v [| |]] rest']; try done.
      intros _. exists [v], rest'. split; [right; eauto|].
      intros st2. simpl. by destruct (take_action a [v] st2).
    + intros _. exists [], rest. split; [by left|].
      intros st2. simpl. by destruct (take_action a [] st2).
    + intros _. exists [], rest. split; [by left|].
      intros st2. simpl. by destruct (take_action a [] st2).
Qed.

(** A relation between two parser states that extras and actions
    preserve is preserved by the loop: a run that succeeds from one
    state succeeds from every related state. *)
Lemma consume_rel (A : action -> Prop) (R : pstate -> pstate -> Prop) :
  (∀ s st st2, R st st2 -> R (add_extra s st) (add_extra s st2)) ->
  (∀ a l st st2 st', A a -> R st st2 -> take_action a l st = Parsed st' ->
     ∃ st2', take_action a l st2 = Parsed st2' ∧ R st' st2') ->
  ∀ toks st st2 st',
    Forall (token_ok actions A) toks -> R st st2 ->
    consume toks st = Parsed st' ->
    ∃ st2', consume toks st2 = Parsed st2' ∧ R st' st2'.
Proof.
  intros Hextra Hact toks.
  induction toks as [toks IH] using (induction_ltof1 _ (@length _)).
  unfold ltof in IH. intros st st2 st' Hok HR Hrun.
  destruct toks as [|[s pat] rest].
  { simpl in *. simplify_eq. eauto. }
  apply Forall_cons in Hok as [Hs Hrest].
  assert (∀ st st2 st', R st st2 ->
            consume rest (add_extra s st) = Parsed st' ->
            ∃ st2', consume rest (add_extra s st2) = Parsed st2' ∧ R st' st2')
    as Hskip.
  { intros ??? HR' Hrun'. eapply IH; [simpl; lia|done|by apply Hextra|done]. }
  destruct pat as [[[[a|] o] e]| |]; [|by eapply Hskip..].
  destruct Hs as [Hin HA]. simpl in Hin, HA.
  destruct (consume_option_step _ _ _ _ _ _ _ Hin Hrun)
    as (l & rest1 & Hrest1 & Heq).
  rewrite Heq in Hrun. rewrite Heq.
  destruct (take_action a l st) as [st1| |] eqn:Htake; [|done..].
  destruct (Hact _ _ _ _ _ HA HR Htake) as (st1' & -> & HR1).
  simpl in *. eapply IH; [| |done..].
  - destruct Hrest1 as [->|(v & ->)]; simpl; lia.
  - destruct Hrest1 as [->|(v & ->)]; [done|].
    by apply Forall_cons in Hrest as [_ ?].
Qed.

(** The unary form: an invariant of extras and actions holds at the
    end of a successful run. *)
Lemma consume_inv (A : action -> Prop) (P : pstate -> Prop) :
  (∀ s st, P st -> P (add_extra s st)) ->
  (∀ a l st st', A a -> P st -> take_action a l st = Parsed st' -> P st') ->
  ∀ toks st st',
    Forall (token_ok actions A) toks -> P st ->
    consume toks st = Parsed st' -> P st'.
Proof.
  intros Hextra Hact toks st st' Hok HP Hrun.
  destruct (consume_rel A (λ st1 st2, st1 = st2 ∧ P st1)) with toks st st st'
    as (st2' & _ & _ & ?); try done.
  - intros ??? [-> ?]. eauto.
  - intros ????? HA [-> ?] Htake. eauto.
Qed.

(** At the end of a successful run every action that was seen was
    supplied by an argument string, and the attribute of an action
    that was not seen is as the defaults left it. *)
Lemma consume_supplied args toks st :
  classify args = Parsed toks ->
  consume toks (initial_state actions) = Parsed st ->
  (∀ d, d ∈ seen st -> supplied actions d args)
  ∧ (∀ d, d ∉ seen st -> ns st !! d = initial_namespace actions !! d).
Proof.
  intros Hcl Hrun.
  pose (A := λ a : action, supplied actions (dest a) args).
  apply (consume_inv A
           (λ st, (∀ d, d ∈ seen st -> supplied actions d args)
                  ∧ (∀ d, d ∉ seen st ->
                          ns st !! d = initial_namespace actions !! d)))
    with toks (initial_state actions); try done.
  - intros a l st1 st2 HA [Hseen Hns] (v & -> & _)%take_action_parsed.
    simpl. split.
    + intros d [->%elem_of_singleton|?]%elem_of_union; [done|by apply Hseen].
    + intros d [Hd1 Hd2]%not_elem_of_union.
      apply not_elem_of_singleton in Hd1.
      rewrite lookup_insert_ne by done. by apply Hns.
  - apply classify_ok with args; [|done].
    intros arg a o e Hin Hopt. exists arg. split; [done|].
    by exists a, o, e.
Qed.

Lemma missing_required_nil st l a :
  missing_required st l = [] -> a ∈ l -> required a = true ->
  dest a ∈ seen st.
Proof.
  unfold missing_required. intros Hnil%map_eq_nil Hin Hreq.
  destruct (decide (dest a ∈ seen st)) as [|Hn]; [done|].
  assert (a ∈ filter (λ a, (dest a ∉ seen st) ∧ (required a = true)) l) as Hf.
  { by apply list_elem_of_filter. }
  rewrite Hnil in Hf. by apply elem_of_nil in Hf.
Qed.

Lemma missing_required_mono st st2 l :
  seen st ⊆ seen st2 ->
  missing_required st l = [] -> missing_required st2 l = [].
Proof.
  unfold missing_required. intros Hsub Hnil%map_eq_nil.
  induction l as [|a l IH]; [done|].
  rewrite filter_cons in Hnil. rewrite filter_cons.
  destruct (decide ((dest a ∉ seen st) ∧ (required a = true))) as [|Hn];
    [done|].
  destruct (decide ((dest a ∉ seen st2) ∧ (required a = true)))
    as [[Hd Hr]|]; [|by apply IH].
  destruct Hn. split; [|done]. intros Hin. by apply Hd, Hsub.
Qed.

(** A flag is taken on the spot. *)
Lemma consume_flag s a o rest st :
  kind a = StoreTrue ->
  consume ((s, PatO (Some a, o, None)) :: rest) st
  = consume rest (setattr (dest a) (PBool true) (mark_seen a st)).
Proof.
  intros Hk. simpl. rewrite Hk. simpl.
  unfold Argparse.take_action, get_values. by rewrite Hk.
Qed.

(** [parse_args] taken apart, when the string defaults of the parser
    are fixed points of their converters. *)
Hypothesis string_defaults :
  ∀ a s, a ∈ actions -> default a = Some (PStr s) ->
         get_value int float a s = Parsed (PStr s).

Lemma parse_args_parsed args nsp :
  parse_args int float actions args = Parsed nsp ->
  ∃ toks st,
    classify args = Parsed toks
    ∧ consume toks (initial_state actions) = Parsed st
    ∧ missing_required st actions = [] ∧ extras st = [] ∧ ns st = nsp.
Proof.
  unfold parse_args, parse_known_args.
  destruct (classify args) as [toks| |]; simpl; [|done..].
  destruct (consume toks _) as [st| |] eqn:Hrun; simpl; [|done..].
  rewrite check_required_eq by done. simpl.
  destruct (missing_required st actions) eqn:Hm; simpl;
    [|intros ?; discriminate].
  destruct (extras st) eqn:Hex; [|intros ?; discriminate]. intros [= <-].
  exists toks, st. done.
Qed.

Lemma parse_args_intro args toks st :
  classify args = Parsed toks ->
  consume toks (initial_state actions) = Parsed st ->
  missing_required st actions = [] -> extras st = [] ->
  parse_args int float actions args = Parsed (ns st).
Proof.
  intros Hcl Hrun Hm Hex. unfold parse_args, parse_known_args.
  rewrite Hcl. simpl. rewrite Hrun. simpl.
  rewrite check_required_eq by done. simpl. rewrite Hm. simpl.
  by rewrite Hex.
Qed.

End Loop.

End ArgparseFacts.

(** ** The parser of [main] *)

Module CliFacts.
Import Argparse ArgparseFacts.

Lemma parser_flags_long o a :
  (o, a) ∈ option_string_actions Cli.parser ->
  kind a = StoreTrue -> single_dash o = false.
Proof.
  intros Hin. apply list_elem_of_In in Hin. vm_compute in Hin.
  repeat (destruct Hin as [Hin|Hin]; [by inversion Hin|]). done.
Qed.

Lemma parser_flag_dest a :
  a ∈ Cli.parser ->
  dest a = "supermatrix_only" ∨ dest a = "gene_trees_only" ->
  kind a = StoreTrue.
Proof.
  unfold Cli.parser. intros Hin Hd.
  repeat (apply elem_of_cons in Hin as [->|Hin]; [by destruct Hd|]).
  by apply elem_of_nil in Hin.
Qed.

Section Facts.

Variable int : string -> option Z.
Variable float : string -> option pyfloat.

#[local] Abbreviation parse_args := (Argparse.parse_args int float Cli.parser).

Lemma parser_string_defaults a s :
  a ∈ Cli.parser -> default a = Some (PStr s) ->
  get_value int float a s = Parsed (PStr s).
Proof.
  unfold Cli.parser. intros Hin.
  repeat (apply elem_of_cons in Hin as [->|Hin]; [done|]).
  by apply elem_of_nil in Hin.
Qed.

Lemma parsed_run args nsp :
  parse_args args = Parsed nsp ->
  ∃ toks st,
    classify Cli.parser args = Parsed toks
    ∧ consume int float Cli.parser toks (initial_state Cli.parser) = Parsed st
    ∧ missing_required st Cli.parser = [] ∧ extras st = [] ∧ ns st = nsp.
Proof.
  apply parse_args_parsed, parser_string_defaults.
Qed.

(** After a successful parse every destination of the parser is an
    attribute of the namespace. *)
Lemma parsed_attributes args nsp d :
  parse_args args = Parsed nsp ->
  is_Some (initial_namespace Cli.parser !! d) -> is_Some (nsp !! d).
Proof.
  intros (toks & st & Hcl & Hrun & _ & _ & <-)%parsed_run Hd.
  apply (consume_inv int float Cli.parser parser_flags_long (λ _, True)
           (λ st, is_Some (ns st !! d)))
    with toks (initial_state Cli.parser); try done.
  - intros a l st1 st2 _ Hsome (v & -> & _)%take_action_parsed. simpl.
    rewrite lookup_insert. by case_decide.
  - apply classify_ok with args; done.
Qed.

(** C6.  The parser marks exactly [-i/--input], [-o/--output] and
    [-t/--threads] as required, the last with the converter [int].  A
    command line that parses supplies all three, and for each of
    [-psc/--percent_single_copy], [--trimal_strategy],
    [--missing_character] and [--gene_tree_program] that it does not
    supply the namespace holds the default: 100.0, ["automated1"],
    ["?"] and ["fasttree"]. *)
Theorem parser_required_and_defaults args nsp :
  parse_args args = Parsed nsp ->
  List.map (λ a, (option_strings a, kind a))
           (List.filter required Cli.parser)
    = [ (["-i"; "--input"], Store TStr);
        (["-o"; "--output"], Store TStr);
        (["-t"; "--threads"], Store TInt) ]
  ∧ (supplied Cli.parser "input" args
     ∧ supplied Cli.parser "output" args
     ∧ supplied Cli.parser "threads" args)
  ∧ (¬ supplied Cli.parser "psc" args ->
       nsp !! "psc" = Some (PFloat (Finite 100)))
  ∧ (¬ supplied Cli.parser "trimal_strategy" args ->
       nsp !! "trimal_strategy" = Some (PStr "automated1"))
  ∧ (¬ supplied Cli.parser "missing_character" args ->
       nsp !! "missing_character" = Some (PStr "?"))
  ∧ (¬ supplied Cli.parser "gene_tree_program" args ->
       nsp !! "gene_tree_program" = Some (PStr "fasttree")).
Proof.
  intros (toks & st & Hcl & Hrun & Hm & _ & <-)%parsed_run.
  destruct (consume_supplied int float Cli.parser parser_flags_long
              args toks st Hcl Hrun) as [Hseen Hns].
  assert (∀ a, a ∈ Cli.parser -> required a = true ->
               supplied Cli.parser (dest a) args) as Hreq.
  { intros a Hin Hr. apply Hseen. by eapply missing_required_nil. }
  assert (∀ d, ¬ supplied Cli.parser d args ->
               ns st !! d = initial_namespace Cli.parser !! d) as Hdef.
  { intros d Hd. apply Hns. intros Hin. by apply Hd, Hseen. }
  split; [reflexivity|]. split.
  { split_and!.
    - apply (Hreq (add_store ["-i"; "--input"] TStr true None PNone));
        [|done]. unfold Cli.parser. repeat constructor.
    - apply (Hreq (add_store ["-o"; "--output"] TStr true None PNone));
        [|done]. unfold Cli.parser. repeat constructor.
    - apply (Hreq (add_store ["-t"; "--threads"] TInt true None PNone));
        [|done]. unfold Cli.parser. repeat constructor. }
  split_and!; intros Hd; rewrite (Hdef _ Hd); reflexivity.
Qed.

(** C5, as the parser has it.  The two flags are independent
    [store_true] switches: putting both in front of a command line that
    parses gives a command line that parses, with both attributes
    [True] and every other attribute as before. *)
Theorem both_flags_accepted args nsp :
  parse_args args = Parsed nsp ->
  parse_args ("--supermatrix_only" :: "--gene_trees_only" :: args)
  = Parsed (<["gene_trees_only" := PBool true]>
              (<["supermatrix_only" := PBool true]> nsp)).
Proof.
  intros (toks & st & Hcl & Hrun & Hm & Hex & <-)%parsed_run.
  set (so := add_store_true ["--supermatrix_only"]).
  set (gt := add_store_true ["--gene_trees_only"]).
  set (both := λ m : gmap string pyval,
         <["gene_trees_only" := PBool true]>
           (<["supermatrix_only" := PBool true]> m)).
  set (R := λ st st2 : pstate,
         ns st2 = both (ns st)
         ∧ seen st2 = {["gene_trees_only"]} ∪ ({["supermatrix_only"]} ∪ seen st)
         ∧ extras st2 = extras st).
  set (st0 := setattr (dest gt) (PBool true) (mark_seen gt
                (setattr (dest so) (PBool true)
                   (mark_seen so (initial_state Cli.parser))))).
  destruct (consume_rel int float Cli.parser parser_flags_long
              (λ a, a ∈ Cli.parser) R) with toks (initial_state Cli.parser) st0 st
    as (st2 & Hrun2 & Hns & Hseen & Hextras); try done.
  - intros s st1 st2 (? & ? & ?). split_and!; try done. simpl. congruence.
  - intros a l st1 st2 st1' Hin (Hns & Hseen & Hextras)
      (v & -> & Hv & Hany)%take_action_parsed.
    eexists. split; [apply Hany|]. split_and!; simpl; 
      [|rewrite Hseen; apply set_eq; intros x; rewrite !elem_of_union; tauto
       |done].
    rewrite Hns. unfold both.
    destruct (decide (dest a = "supermatrix_only")) as [Hso|Hso].
    { rewrite Hv by (apply parser_flag_dest; auto). rewrite Hso.
      apply map_eq. intros k. rewrite !lookup_insert.
      repeat case_decide; congruence. }
    destruct (decide (dest a = "gene_trees_only")) as [Hgt|Hgt].
    { rewrite Hv by (apply parser_flag_dest; auto). rewrite Hgt.
      apply map_eq. intros k. rewrite !lookup_insert.
      repeat case_decide; congruence. }
    apply map_eq. intros k. rewrite !lookup_insert.
    repeat case_decide; congruence.
  - eapply classify_ok; [|exact Hcl].
    intros arg a o e _ Hopt%parse_optional_elem.
    by apply option_string_actions_elem in Hopt as [? _].
  - fold (both (ns st)). rewrite <-Hns.
    apply parse_args_intro
      with ((("--supermatrix_only", PatO (Some so, "--supermatrix_only", None)))
            :: ("--gene_trees_only", PatO (Some gt, "--gene_trees_only", None))
            :: toks).
    + apply parser_string_defaults.
    + apply (classify_cons Cli.parser _ _
               (Some (Some so, "--supermatrix_only", None))); [done|done|].
      by apply (classify_cons Cli.parser _ _
                  (Some (Some gt, "--gene_trees_only", None))).
    + by rewrite !consume_flag.
    + apply missing_required_mono with st; [|done]. rewrite Hseen.
      do 2 apply union_subseteq_r'. done.
    + congruence.
Qed.

End Facts.

(** A command line with both flags: the parser accepts it and sets both
    attributes. *)
Lemma both_flags_parse :
  ∃ nsp,
    Argparse.parse_args Decimal.int Decimal.float Cli.parser
      ["-i"; "busco_runs"; "-o"; "results"; "-t"; "4";
       "--supermatrix_only"; "--gene_trees_only"] = Parsed nsp
    ∧ nsp !! "supermatrix_only" = Some (PBool true)
    ∧ nsp !! "gene_trees_only" = Some (PBool true).
Proof. exists (<["gene_trees_only" := PBool true]>
                (<["supermatrix_only" := PBool true]> Script.sample_args)).
  split_and!; reflexivity. Qed.

Lemma both_flags_accepted_witness :
  Argparse.parse_args Decimal.int Decimal.float Cli.parser
    ["-i"; "busco_runs"; "-o"; "results"; "-t"; "4"]
  = Parsed Script.sample_args
  ∧ Argparse.parse_args Decimal.int Decimal.float Cli.parser
      ["--supermatrix_only"; "--gene_trees_only";
       "-i"; "busco_runs"; "-o"; "results"; "-t"; "4"]
    = Parsed (<["gene_trees_only" := PBool true]>
                (<["supermatrix_only" := PBool true]> Script.sample_args)).
Proof.
  split; [reflexivity|].
  apply both_flags_accepted. reflexivity.
Defined.

(** A command line with the required options only. *)
Lemma parser_required_and_defaults_witness :
  Argparse.parse_args Decimal.int Decimal.float Cli.parser
    ["-i"; "busco_runs"; "-o"; "results"; "-t"; "4"]
  = Parsed (list_to_map
      [ ("input", PStr "busco_runs"); ("output", PStr "results");
        ("threads", PInt 4); ("supermatrix_only", PBool false);
        ("gene_trees_only", PBool false); ("nt", PBool false);
        ("psc", PFloat (Finite 100)); ("trimal_strategy", PStr "automated1");
        ("missing_character", PStr "?"); ("gene_tree_program", PStr "fasttree");
        ("busco_version_3", PBool false) ])
  ∧ supplied Cli.parser "threads" ["-i"; "busco_runs"; "-o"; "results"; "-t"; "4"].
Proof.
  assert (Argparse.parse_args Decimal.int Decimal.float Cli.parser
            ["-i"; "busco_runs"; "-o"; "results"; "-t"; "4"]
          = Parsed (list_to_map
              [ ("input", PStr "busco_runs"); ("output", PStr "results");
                ("threads", PInt 4); ("supermatrix_only", PBool false);
                ("gene_trees_only", PBool false); ("nt", PBool false);
                ("psc", PFloat (Finite 100)); ("trimal_strategy", PStr "automated1");
                ("missing_character", PStr "?"); ("gene_tree_program", PStr "fasttree");
                ("busco_version_3", PBool false) ])) as Hparse.
  { reflexivity. }
  split; [exact Hparse|].
  exact (proj2 (proj2 (proj1 (proj2
    (parser_required_and_defaults Decimal.int Decimal.float _ _ Hparse))))).
Defined.

End CliFacts.

(** ** The script *)

Module ScriptFacts.
Import Argparse Script.

Lemma stamp_all_frame msgs w :
  fs (stamp_all msgs w) = fs w
  ∧ sys_argv (stamp_all msgs w) = sys_argv w
  ∧ stderr (stamp_all msgs w) = stderr w
  ∧ clock (stamp_all msgs w) = clock w
  ∧ ticks (stamp_all msgs w) = ticks w + length msgs.
Proof.
  revert w. induction msgs as [|parts msgs IH]; intros w; simpl.
  { split_and!; done || lia. }
  destruct (IH (stamp parts w)) as (-> & -> & -> & -> & ->). simpl.
  split_and!; done || lia.
Qed.


Lemma stamp_all_snoc msgs parts w :
  stamp parts (stamp_all msgs w) = stamp_all (msgs ++ [parts]) w.
Proof. unfold stamp_all. by rewrite foldl_app. Qed.

Section Facts.

Variable int : string -> option Z.
Variable float : string -> option pyfloat.
Variable abspath : string -> string.
Variable globals : gset string.

#[local] Abbreviation main := (main int float abspath globals).
#[local] Abbreviation parsed w :=
  (Argparse.parse_args int float Cli.parser (tail (sys_argv w))).

Lemma call_bound parts w :
  "print_message" ∈ globals ->
  call_print_message globals parts w = (Return tt, stamp parts w).
Proof. intros Hin. unfold call_print_message. by rewrite bool_decide_true. Qed.

Lemma call_unbound parts w :
  "print_message" ∉ globals ->
  call_print_message globals parts w = (Raise (NameError "print_message"), w).
Proof. intros Hin. unfold call_print_message. by rewrite bool_decide_false. Qed.

Lemma startup_bound args w :
  "print_message" ∈ globals ->
  startup_messages globals args w
  = (Return tt, stamp_all (startup_lines args w) w).
Proof.
  intros Hin. unfold startup_messages, mbind, M_bind.
  by rewrite !call_bound.
Qed.

Lemma main_parsed args w :
  parsed w = Parsed args ->
  main w = (_ ← startup_messages globals args;
            check_directories abspath globals args) w.
Proof.
  intros Hp. unfold Script.main, mbind, M_bind, parse_args. by rewrite Hp.
Qed.

(** The checks, once the paths are known to be strings. *)
Lemma check_directories_paths args input output w :
  parsed w = Parsed args ->
  args !! "input" = Some (PStr input) ->
  args !! "output" = Some (PStr output) ->
  "print_message" ∈ globals ->
  ∀ w1,
    check_directories abspath globals args w1
    = if negb (is_directory (fs w1) (abspath input))
      then (Raise (SystemExit None),
            stamp (input_not_found (abspath input)) w1)
      else if is_directory (fs w1) (abspath output)
      then (Raise (SystemExit None),
            stamp (output_exists (abspath output)) w1)
      else (Return tt, w1).
Proof.
  intros Hp Hi Ho Hin w1.
  destruct (CliFacts.parsed_attributes int float _ _ "threads" Hp)
    as [threads Ht]; [by eexists|].
  unfold check_directories, getattr, mbind, M_bind.
  rewrite Hi, Ho, Ht. simpl. unfold isdir, when.
  destruct (is_directory (fs w1) (abspath input)); simpl.
  - destruct (is_directory (fs w1) (abspath output)); [|done].
    by rewrite call_bound.
  - by rewrite call_bound.
Qed.

Lemma main_checks args input output w :
  "print_message" ∈ globals ->
  parsed w = Parsed args ->
  args !! "input" = Some (PStr input) ->
  args !! "output" = Some (PStr output) ->
  main w
  = if negb (is_directory (fs w) (abspath input))
    then (Raise (SystemExit None),
          stamp_all (startup_lines args w ++ [input_not_found (abspath input)]) w)
    else if is_directory (fs w) (abspath output)
    then (Raise (SystemExit None),
          stamp_all (startup_lines args w ++ [output_exists (abspath output)]) w)
    else (Return tt, stamp_all (startup_lines args w) w).
Proof.
  intros Hin Hp Hi Ho. rewrite (main_parsed args) by done.
  unfold mbind, M_bind. rewrite startup_bound by done.
  rewrite (check_directories_paths args input output w) by done.
  destruct (stamp_all_frame (startup_lines args w) w) as (-> & _).
  by rewrite !stamp_all_snoc.
Qed.




End Facts.

(** The sample run parses. *)
Lemma sample_parsed files :
  Argparse.parse_args Decimal.int Decimal.float Cli.parser
    (tail (sys_argv (sample_world files))) = Parsed sample_args.
Proof. reflexivity. Defined.

Lemma print_message_bound : "print_message" ∈ module_globals.
Proof. unfold module_globals. apply elem_of_union_l, elem_of_singleton. reflexivity. Defined.

Lemma print_message_unbound : "print_message" ∉ fragment_globals.
Proof. apply (bool_decide_unpack _). reflexivity. Defined.

(** C9.  No statement of the source file binds [print_message].  So
    for every invocation of [main] that gets past argument parsing,
    whatever the parsed arguments, the directories and the clock, the
    first call of [print_message] raises [NameError]: the start-up
    messages end in it with the world as it was, and so does [main],
    which therefore prints no start-up message and runs neither the
    check of the input directory nor that of the output directory. *)
Theorem print_message_undefined int float abspath args w :
  Argparse.parse_args int float Cli.parser (tail (sys_argv w)) = Parsed args ->
  "print_message" ∉ fragment_globals
  ∧ startup_messages fragment_globals args w
    = (Raise (NameError "print_message"), w)
  ∧ main int float abspath fragment_globals w
    = (Raise (NameError "print_message"), w).
Proof.
  intros Hp. pose proof print_message_unbound as Hout.
  assert (startup_messages fragment_globals args w
          = (Raise (NameError "print_message"), w)) as Hstart.
  { unfold startup_messages, mbind, M_bind.
    by rewrite (call_unbound fragment_globals). }
  split; [done|]. split; [done|].
  rewrite (main_parsed int float abspath fragment_globals args w Hp).
  unfold mbind, M_bind. by rewrite Hstart.
Qed.




Lemma print_message_undefined_witness :
  Argparse.parse_args Decimal.int Decimal.float Cli.parser
    (tail (sys_argv (sample_world sample_files))) = Parsed sample_args
  ∧ "print_message" ∉ fragment_globals
  ∧ startup_messages fragment_globals sample_args (sample_world sample_files)
    = (Raise (NameError "print_message"), sample_world sample_files)
  ∧ main Decimal.int Decimal.float (abspath_in "/data") fragment_globals
      (sample_world sample_files)
    = (Raise (NameError "print_message"), sample_world sample_files).
Proof.
  split; [exact (sample_parsed sample_files)|].
  exact (print_message_undefined Decimal.int Decimal.float (abspath_in "/data")
           sample_args (sample_world sample_files) (sample_parsed sample_files)).
Defined.

End ScriptFacts.

(** ** Marker selection *)

Module MarkersFacts.
Import Markers.

Local Open Scope Q_scope.

Lemma elem_of_all_markers m (sc : scan) :
  m ∈ all_markers sc ↔ ∃ sp, sp ∈ sc ∧ m ∈ sp.2.
Proof.
  unfold all_markers. rewrite elem_of_union_list. split.
  - intros (X & (sp & -> & Hin)%list_elem_of_fmap & Hm). eauto.
  - intros (sp & Hin & Hm). exists sp.2. split; [|done].
    apply list_elem_of_fmap. eauto.
Qed.

Lemma holders_empty m (sc : scan) :
  m ∉ all_markers sc -> holders m sc = ∅.
Proof.
  intros Hm. unfold holders.
  replace (filter (λ sp, m ∈ sp.2) sc) with (@nil (string * gset string));
    [done|].
  symmetry. induction sc as [|sp sc IH]; [done|].
  rewrite filter_cons_False.
  - apply IH. intros (sp' & ? & ?)%elem_of_all_markers.
    apply Hm, elem_of_all_markers. exists sp'. split; [|done].
    by apply list_elem_of_further.
  - intros Hin. apply Hm, elem_of_all_markers. exists sp.
    split; [apply list_elem_of_here|done].
Qed.

(** The entry of a marker in the occupancy record: the species that have
    it, for a marker that occurs at all. *)
Lemma occupancy_lookup m (sc : scan) :
  occupancy sc !! m
  = if decide (m ∈ all_markers sc) then Some (holders m sc) else None.
Proof.
  induction sc as [|sp sc IH]; simpl.
  { rewrite lookup_empty. by rewrite decide_False by apply not_elem_of_empty. }
  unfold record_species, species_entries.
  rewrite lookup_union_with, IH.
  assert (all_markers (sp :: sc) = sp.2 ∪ all_markers sc) as -> by done.
  unfold holders. destruct (decide (m ∈ sp.2)) as [Hsp|Hsp].
  - rewrite (proj2 (lookup_gset_to_gmap_Some _ _ _ {[sp.1]})) by done.
    rewrite filter_cons_True by done.
    destruct (decide (m ∈ sp.2 ∪ all_markers sc)) as [_|Hn];
      [|by destruct Hn; apply elem_of_union_l].
    rewrite fmap_cons, list_to_set_cons.
    destruct (decide (m ∈ all_markers sc)) as [Hsc|Hsc]; [done|].
    apply holders_empty in Hsc. unfold holders in Hsc. rewrite Hsc.
    by rewrite (right_id_L ∅ (∪)).
  - rewrite (proj2 (lookup_gset_to_gmap_None _ _ _)) by done.
    rewrite filter_cons_False by done.
    simpl. destruct (decide (m ∈ all_markers sc)) as [Hsc|Hsc];
      destruct (decide (m ∈ sp.2 ∪ all_markers sc)) as [Hu|Hu]; try done.
    + by destruct Hu; apply elem_of_union_r.
    + by apply elem_of_union in Hu as [?|?].
Qed.

Lemma size_list_to_set_le (l : list string) :
  (size (list_to_set l : gset string) <= length l)%nat.
Proof.
  induction l as [|x l IH].
  { rewrite list_to_set_nil, size_empty. done. }
  rewrite list_to_set_cons, size_union_alt, size_singleton.
  assert (size (list_to_set l ∖ {[x]} : gset string)
          <= size (list_to_set l : gset string))%nat.
  { apply subseteq_size. apply subseteq_difference_l. done. }
  simpl. lia.
Qed.

Lemma size_holders_le m (sc : scan) :
  (size (holders m sc) <= occurrence_count m sc)%nat.
Proof.
  unfold holders, occurrence_count.
  etrans; [apply size_list_to_set_le|]. by rewrite length_fmap.
Qed.

(** Species are identified by the name of their directory: in a listing
    with distinct names the holders of a marker are as many as the species
    in which it occurs. *)
Lemma size_holders m (sc : scan) :
  NoDup (sc.*1) -> size (holders m sc) = occurrence_count m sc.
Proof.
  intros Hnd. unfold holders, occurrence_count.
  rewrite size_list_to_set; [by rewrite length_fmap|].
  apply (sublist_NoDup _ (sc.*1)); [done|].
  apply fmap_sublist, sublist_filter.
Qed.

(** Membership in the selection, in terms of the occupancy record. *)
Lemma elem_of_select_markers t m (sc : scan) :
  m ∈ select_markers t sc
  ↔ m ∈ all_markers sc
    ∧ t / 100 <= presence_fraction (size (holders m sc)) (length sc).
Proof.
  unfold select_markers. rewrite elem_of_dom. unfold is_Some.
  setoid_rewrite map_lookup_filter_Some. simpl.
  setoid_rewrite occupancy_lookup. unfold meets_threshold.
  setoid_rewrite Qle_bool_iff.
  destruct (decide (m ∈ all_markers sc)) as [Hm|Hm].
  - split; [intros (S & [= <-] & Hle); done|]. intros [_ Hle]. eauto.
  - split; [intros (S & [=] & _)|]. intros [? _]. done.
Qed.

End MarkersFacts.

(** ** Runs of the parsing loop on longer command lines *)

Module ArgparseRuns.
Import Argparse ArgparseFacts.

Section Classify.

Variable actions : list action.

#[local] Abbreviation classify := (classify actions).
#[local] Abbreviation parse_optional := (parse_optional actions).

(** Up to the first ["--"] the first pass works string by string. *)
Lemma classify_app pre post toks toks' :
  "--" ∉ pre ->
  classify pre = Parsed toks -> classify post = Parsed toks' ->
  classify (pre ++ post) = Parsed (toks ++ toks').
Proof.
  revert toks. induction pre as [|arg pre IH]; intros toks Hdash; simpl.
  { by intros [= <-] ->. }
  apply not_elem_of_cons in Hdash as [Hne Hdash].
  destruct (String.eqb arg "--") eqn:Heq.
  { apply String.eqb_eq in Heq. by destruct Hne. }
  destruct (parse_optional arg) as [t| |]; simpl; [|done..].
  destruct (classify pre) as [r| |]; simpl; [|done..].
  intros [= <-] Hpost. by rewrite (IH r Hdash eq_refl Hpost).
Qed.

Lemma classify_strings args toks :
  classify args = Parsed toks -> toks.*1 = args.
Proof.
  revert toks. induction args as [|arg args IH]; intros toks; simpl.
  { by intros [= <-]. }
  destruct (String.eqb arg "--").
  { intros [= <-]. simpl. f_equal. clear IH.
    induction args as [|x xs IHx]; simpl; [done|]. by rewrite IHx. }
  destruct (parse_optional arg) as [t| |]; simpl; [|done..].
  destruct (classify args) as [r| |]; simpl; [|done..].
  intros [= <-]. simpl. f_equal. by apply IH.
Qed.

(** A ["--"] among the strings is among the classified strings with the
    pattern of the separator. *)
Lemma classify_dash args toks :
  classify args = Parsed toks -> "--" ∈ args -> ("--", PatDash) ∈ toks.
Proof.
  revert toks. induction args as [|arg args IH]; intros toks; simpl.
  { intros _ Hin. by apply elem_of_nil in Hin. }
  destruct (String.eqb arg "--") eqn:Heq.
  { apply String.eqb_eq in Heq. subst arg. intros [= <-] _.
    apply list_elem_of_here. }
  destruct (parse_optional arg) as [t| |]; simpl; [|done..].
  destruct (classify args) as [r| |]; simpl; [|done..].
  intros [= <-] [Harg|Hin]%elem_of_cons.
  { rewrite <-Harg in Heq. by rewrite String.eqb_refl in Heq. }
  apply list_elem_of_further. by apply IH.
Qed.

(** Before any ["--"], a string in which [_parse_optional] sees an
    option is classified with that option. *)
Lemma classify_option args toks arg t :
  classify args = Parsed toks -> "--" ∉ args -> arg ∈ args ->
  parse_optional arg = Parsed (Some t) -> (arg, PatO t) ∈ toks.
Proof.
  revert toks. induction args as [|arg' args IH]; intros toks; simpl.
  { intros _ _ Hin. by apply elem_of_nil in Hin. }
  intros Hcl [Hne Hdash]%not_elem_of_cons Hin Hopt.
  destruct (String.eqb arg' "--") eqn:Heq.
  { apply String.eqb_eq in Heq. by destruct Hne. }
  destruct (parse_optional arg') as [t'| |] eqn:Hopt'; simpl in Hcl; [|done..].
  destruct (classify args) as [r| |]; simpl in Hcl; [|done..].
  injection Hcl as <-.
  apply elem_of_cons in Hin as [->|Hin].
  - rewrite Hopt in Hopt'. injection Hopt' as <-. apply list_elem_of_here.
  - apply list_elem_of_further. by apply IH.
Qed.

Lemma parse_optional_no_exit arg : parse_optional arg ≠ HelpExit.
Proof.
  unfold Argparse.parse_optional. repeat case_match; done.
Qed.

(** An error of [_parse_optional] on a string before any ["--"] is an
    error of the first pass. *)
Lemma classify_error pre arg post e :
  "--" ∉ pre -> parse_optional arg = ParseError e -> arg ≠ "--" ->
  ∃ e', classify (pre ++ arg :: post) = ParseError e'.
Proof.
  intros Hdash Hopt Hne. induction pre as [|arg' pre IH]; simpl.
  - destruct (String.eqb arg "--") eqn:Heq.
    { by apply String.eqb_eq in Heq. }
    rewrite Hopt. simpl. eauto.
  - apply not_elem_of_cons in Hdash as [Hne' Hdash].
    destruct (String.eqb arg' "--") eqn:Heq.
    { apply String.eqb_eq in Heq. by destruct Hne'. }
    destruct (parse_optional arg') as [t| |] eqn:Hopt'; simpl.
    + destruct (IH Hdash) as [e' ->]. simpl. eauto.
    + by apply parse_optional_no_exit in Hopt'.
    + eauto.
Qed.

Lemma token_ok_weaken (A : action -> Prop) toks :
  Forall (token_ok actions A) toks ->
  Forall (token_ok actions (λ _, True)) toks.
Proof.
  intros Hok. eapply Forall_impl; [exact Hok|].
  intros [s [[[[a|] o] e]| |]]; unfold token_ok; simpl; tauto.
Qed.

End Classify.

Section Loop.

Variable int : string -> option Z.
Variable float : string -> option pyfloat.
Variable actions : list action.

#[local] Abbreviation option_string_actions := (option_string_actions actions).
#[local] Abbreviation consume := (consume int float actions).
#[local] Abbreviation take_action := (take_action int float).
#[local] Abbreviation take_actions := (take_actions int float).

Hypothesis flags_long :
  ∀ o a, (o, a) ∈ option_string_actions ->
         kind a = StoreTrue -> single_dash o = false.

(** The step of a successful run at an option string, with what the
    action is given, a single string for a [store] action and nothing
    for a flag, and on any longer list of classified strings. *)
Lemma consume_option_step_app s a o e rest st st' :
  (o, a) ∈ option_string_actions ->
  consume ((s, PatO (Some a, o, e)) :: rest) st = Parsed st' ->
  ∃ arg_strings rest1,
    (rest1 = rest ∨ ∃ v, rest = (v, PatA) :: rest1)
    ∧ match kind a with
      | Store _ => ∃ v, arg_strings = [v]
      | _ => arg_strings = []
      end
    ∧ ∀ more st2, consume ((s, PatO (Some a, o, e)) :: rest ++ more) st2
                  = take_action a arg_strings st2 ≫= consume (rest1 ++ more).
Proof.
  intros Hin. simpl. destruct e as [e|].
  - destruct (with_explicit actions a o e) as [[tuples pending]| |] eqn:Hwe;
      [|done..].
    destruct (with_explicit_parsed actions flags_long _ _ _ _ _ Hin Hwe)
      as [(ty & Hk & -> & ->)|(Hk & tl & ->)].
    + intros _. exists [e], rest. rewrite Hk. split_and!; [by left|by eexists|].
      intros more st2. simpl.
      by destruct (take_action a [e] st2).
    + destruct pending as [p|].
      * destruct (kind p).
        -- destruct rest as [|[v [| |]] rest']; try done.
           by rewrite take_actions_app_help.
        -- by rewrite take_actions_app_help.
        -- by rewrite take_actions_app_help.
      * by rewrite take_actions_help.
  - destruct (kind a) eqn:Hk.
    + destruct rest as [|[v [| |]] rest']; try done.
      intros _. exists [v], rest'. split_and!; [right; eauto|by eexists|].
      intros more st2. simpl.
      by destruct (take_action a [v] st2).
    + intros _. exists [], rest. split_and!; [by left|done|].
      intros more st2. simpl.
      by destruct (take_action a [] st2).
    + intros _. exists [], rest. split_and!; [by left|done|].
      intros more st2. simpl.
      by destruct (take_action a [] st2).
Qed.

(** A successful run on a list of classified strings is the first part
    of the run on any longer list. *)
Lemma consume_app toks more st st' :
  Forall (token_ok actions (λ _, True)) toks ->
  consume toks st = Parsed st' ->
  consume (toks ++ more) st = consume more st'.
Proof.
  revert st.
  induction toks as [toks IH] using (induction_ltof1 _ (@length _)).
  unfold ltof in IH. intros st Hok Hrun.
  destruct toks as [|[s pat] rest].
  { simpl in *. by simplify_eq. }
  apply Forall_cons in Hok as [Hs Hrest].
  assert (consume rest (add_extra s st) = Parsed st' ->
          consume (rest ++ more) (add_extra s st) = consume more st') as Hskip.
  { intros Hrun'. apply IH; [simpl; lia|done..]. }
  destruct pat as [[[[a|] o] e]| |]; [|by apply Hskip..].
  destruct Hs as [Hin _]. simpl in Hin.
  destruct (consume_option_step_app _ _ _ _ _ _ _ Hin Hrun)
    as (l & rest1 & Hrest1 & _ & Heq).
  pose proof (Heq [] st) as Heq0. rewrite !app_nil_r in Heq0.
  rewrite Heq0 in Hrun. rewrite <-app_comm_cons, Heq.
  destruct (take_action a l st) as [st1| |]; [|done..]. simpl in *.
  apply IH; [| |done].
  - destruct Hrest1 as [->|(v & ->)]; simpl; lia.
  - destruct Hrest1 as [->|(v & ->)]; [done|].
    by apply Forall_cons in Hrest as [_ ?].
Qed.

(** An invariant of extras and of actions on the strings the loop gives
    them holds at the end of a successful run. *)
Lemma consume_inv_args (A : action -> Prop) (P : pstate -> Prop) :
  (∀ s st, P st -> P (add_extra s st)) ->
  (∀ a l st st', A a -> P st ->
     match kind a with Store _ => ∃ v, l = [v] | _ => l = [] end ->
     take_action a l st = Parsed st' -> P st') ->
  ∀ toks st st',
    Forall (token_ok actions A) toks -> P st ->
    consume toks st = Parsed st' -> P st'.
Proof.
  intros Hextra Hact toks.
  induction toks as [toks IH] using (induction_ltof1 _ (@length _)).
  unfold ltof in IH. intros st st' Hok HP Hrun.
  destruct toks as [|[s pat] rest].
  { simpl in *. by simplify_eq. }
  apply Forall_cons in Hok as [Hs Hrest].
  assert (consume rest (add_extra s st) = Parsed st' -> P st') as Hskip.
  { intros Hrun'.
    apply (IH rest) with (add_extra s st); [simpl; lia|done|by apply Hextra|done]. }
  destruct pat as [[[[a|] o] e]| |]; [|by apply Hskip..].
  destruct Hs as [Hin HA]. simpl in Hin, HA.
  destruct (consume_option_step_app _ _ _ _ _ _ _ Hin Hrun)
    as (l & rest1 & Hrest1 & Hl & Heq).
  pose proof (Heq [] st) as Heq0. rewrite !app_nil_r in Heq0.
  rewrite Heq0 in Hrun.
  destruct (take_action a l st) as [st1| |] eqn:Htake; [|done..].
  simpl in Hrun. apply (IH rest1) with st1; [| |by eapply Hact|done].
  - destruct Hrest1 as [->|(v & ->)]; simpl; lia.
  - destruct Hrest1 as [->|(v & ->)]; [done|].
    by apply Forall_cons in Hrest as [_ ?].
Qed.

(** The loop only adds to the extras and to the actions seen. *)
Lemma consume_grows toks st st' :
  Forall (token_ok actions (λ _, True)) toks ->
  consume toks st = Parsed st' ->
  (∃ xs, extras st' = extras st ++ xs) ∧ seen st ⊆ seen st'.
Proof.
  intros Hok Hrun.
  apply (consume_inv int float actions flags_long (λ _, True)
           (λ st1, (∃ xs, extras st1 = extras st ++ xs) ∧ seen st ⊆ seen st1))
    with toks st; try done.
  - intros s st1 [[xs Hxs] Hseen]. split; [|done]. exists (xs ++ [s]).
    simpl. by rewrite Hxs, app_assoc.
  - intros a l st1 st2 _ [Hxs Hseen] (v & -> & _)%take_action_parsed.
    split; [done|]. simpl. by apply union_subseteq_r'.
  - split; [|done]. exists []. by rewrite app_nil_r.
Qed.

(** A separator among the classified strings is left over. *)
Lemma consume_dash toks st st' :
  Forall (token_ok actions (λ _, True)) toks ->
  consume toks st = Parsed st' ->
  ("--", PatDash) ∈ toks -> extras st' ≠ [].
Proof.
  revert st.
  induction toks as [toks IH] using (induction_ltof1 _ (@length _)).
  unfold ltof in IH. intros st Hok Hrun Hdash.
  destruct toks as [|[s pat] rest]; [by apply elem_of_nil in Hdash|].
  apply Forall_cons in Hok as [Hs Hrest].
  destruct pat as [[[[a|] o] e]| |].
  - apply elem_of_cons in Hdash as [[=]|Hdash].
    destruct Hs as [Hin _]. simpl in Hin.
    destruct (consume_option_step_app _ _ _ _ _ _ _ Hin Hrun)
      as (l & rest1 & Hrest1 & _ & Heq).
    pose proof (Heq [] st) as Heq0. rewrite !app_nil_r in Heq0.
    rewrite Heq0 in Hrun.
    destruct (take_action a l st) as [st1| |]; [|done..]. simpl in Hrun.
    apply (IH rest1) with st1; try done.
    + destruct Hrest1 as [->|(v & ->)]; simpl; lia.
    + destruct Hrest1 as [->|(v & ->)]; [done|].
      by apply Forall_cons in Hrest as [_ ?].
    + destruct Hrest1 as [->|(v & ->)]; [done|].
      by apply elem_of_cons in Hdash as [[=]|?].
  - apply elem_of_cons in Hdash as [[=]|Hdash]. simpl in Hrun.
    apply (IH rest) with (add_extra s st); try done. simpl; lia.
  - apply elem_of_cons in Hdash as [[=]|Hdash]. simpl in Hrun.
    apply (IH rest) with (add_extra s st); try done. simpl; lia.
  - simpl in Hrun.
    destruct (consume_grows _ _ _ Hrest Hrun) as [[xs Hxs] _].
    rewrite Hxs. simpl. intros Hnil.
    apply app_eq_nil in Hnil as [Hnil _].
    by apply app_eq_nil in Hnil as [_ ?].
Qed.

(** The action of every option string among the classified strings of a
    successful run was seen. *)
Lemma consume_sees toks st st' s a o e :
  Forall (token_ok actions (λ _, True)) toks ->
  consume toks st = Parsed st' ->
  (s, PatO (Some a, o, e)) ∈ toks -> dest a ∈ seen st'.
Proof.
  revert st.
  induction toks as [toks IH] using (induction_ltof1 _ (@length _)).
  unfold ltof in IH. intros st Hok Hrun Helem.
  destruct toks as [|[s' pat] rest]; [by apply elem_of_nil in Helem|].
  apply Forall_cons in Hok as [Hs Hrest].
  destruct pat as [[[[a'|] o'] e']| |].
  - destruct Hs as [Hin _]. simpl in Hin.
    destruct (consume_option_step_app _ _ _ _ _ _ _ Hin Hrun)
      as (l & rest1 & Hrest1 & _ & Heq).
    pose proof (Heq [] st) as Heq0. rewrite !app_nil_r in Heq0.
    rewrite Heq0 in Hrun.
    destruct (take_action a' l st) as [st1| |] eqn:Htake; [|done..].
    simpl in Hrun.
    assert (Forall (token_ok actions (λ _, True)) rest1) as Hok1.
    { destruct Hrest1 as [->|(v & ->)]; [done|].
      by apply Forall_cons in Hrest as [_ ?]. }
    apply elem_of_cons in Helem as [[= -> -> -> ->]|Helem].
    + apply take_action_parsed in Htake as (v & -> & _).
      apply (consume_grows _ _ _ Hok1 Hrun). simpl.
      apply elem_of_union_l, elem_of_singleton. done.
    + apply (IH rest1) with st1; try done.
      * destruct Hrest1 as [->|(v & ->)]; simpl; lia.
      * destruct Hrest1 as [->|(v & ->)]; [done|].
        by apply elem_of_cons in Helem as [[=]|?].
  - apply elem_of_cons in Helem as [[=]|Helem]. simpl in Hrun.
    apply (IH rest) with (add_extra s' st); try done. simpl; lia.
  - apply elem_of_cons in Helem as [[=]|Helem]. simpl in Hrun.
    apply (IH rest) with (add_extra s' st); try done. simpl; lia.
  - apply elem_of_cons in Helem as [[=]|Helem]. simpl in Hrun.
    apply (IH rest) with (add_extra s' st); try done. simpl; lia.
Qed.

Hypothesis string_defaults :
  ∀ a s, a ∈ actions -> default a = Some (PStr s) ->
         get_value int float a s = Parsed (PStr s).

(** [parse_args] after the loop: the required check, then the check for
    left-over strings. *)
Lemma parse_args_consumed args toks st :
  classify actions args = Parsed toks ->
  consume toks (initial_state actions) = Parsed st ->
  parse_args int float actions args
  = match missing_required st actions with
    | [] => match extras st with
            | [] => Parsed (ns st)
            | argv => ParseError (UnrecognizedArguments argv)
            end
    | names => ParseError (RequiredMissing names)
    end.
Proof.
  intros Hcl Hrun. unfold parse_args, parse_known_args.
  rewrite Hcl. simpl. rewrite Hrun. simpl.
  rewrite check_required_eq by done. simpl.
  by destruct (missing_required st actions).
Qed.

Lemma parse_args_loop_error args toks e :
  classify actions args = Parsed toks ->
  consume toks (initial_state actions) = ParseError e ->
  parse_args int float actions args = ParseError e.
Proof.
  intros Hcl Hrun. unfold parse_args, parse_known_args.
  rewrite Hcl. simpl. by rewrite Hrun.
Qed.

End Loop.

End ArgparseRuns.

(** ** More on the parser of [main] *)

Module CliRuns.
Import Argparse ArgparseFacts ArgparseRuns CliFacts.

(** Each option string of the parser is found as it is written. *)
Lemma parser_option_exact a o :
  a ∈ Cli.parser -> o ∈ option_strings a ->
  o ≠ "--" ∧ parse_optional Cli.parser o = Parsed (Some (Some a, o, None)).
Proof.
  unfold Cli.parser. intros Hin Ho.
  repeat (apply elem_of_cons in Hin as [->|Hin];
          [simpl in Ho;
           repeat (apply elem_of_cons in Ho as [->|Ho]; [by split|]);
           by apply elem_of_nil in Ho|]).
  by apply elem_of_nil in Hin.
Qed.

(** No two actions of the parser share a destination. *)
Lemma parser_dest_inj a b :
  a ∈ Cli.parser -> b ∈ Cli.parser -> dest a = dest b -> a = b.
Proof.
  unfold Cli.parser. intros Ha Hb.
  repeat (apply elem_of_cons in Ha as [->|Ha];
          [repeat (apply elem_of_cons in Hb as [->|Hb]; [by intros|]);
           by apply elem_of_nil in Hb|]).
  by apply elem_of_nil in Ha.
Qed.

(** A digit or a point after the dash: no option string of the parser
    starts that way. *)
Lemma numeral_head c :
  Str.is_digit c = true ∨ c = "."%char ->
  c ∈ [ "0"; "1"; "2"; "3"; "4"; "5"; "6"; "7"; "8"; "9"; "." ]%char.
Proof.
  intros Hc.
  destruct c as [[] [] [] [] [] [] [] []];
    try (exfalso; destruct Hc as [Hc|Hc]; discriminate Hc);
    repeat first [apply list_elem_of_here | apply list_elem_of_further].
Qed.

Lemma numeral_lookup c r :
  Str.is_digit c = true ∨ c = "."%char ->
  lookup_option Cli.parser (String "-" (String c r)) = None
  ∧ get_option_tuples Cli.parser (String "-" (String c r)) = [].
Proof.
  intros Hc%numeral_head.
  repeat (apply elem_of_cons in Hc as [->|Hc]; [by split|]).
  by apply elem_of_nil in Hc.
Qed.

Lemma split_eq_at_end s : Str.at_end s = true -> Str.split_eq s = None.
Proof.
  destruct s as [|c [|c' s]]; simpl; try done.
  intros ->%Ascii.eqb_eq. done.
Qed.

Lemma digit_not_equals c : Str.is_digit c = true -> Ascii.eqb c "=" = false.
Proof. intros Hc. by destruct c as [[] [] [] [] [] [] [] []]. Qed.

Lemma split_eq_digits s :
  Str.split_eq (Str.drop_digits s) = None -> Str.split_eq s = None.
Proof.
  induction s as [|c s IH]; simpl; [done|].
  destruct (Str.is_digit c) eqn:Hc; [|done].
  intros Hs. rewrite (digit_not_equals c Hc). by rewrite IH.
Qed.

Lemma split_eq_digits_end s :
  Str.digits1_end s = true -> Str.split_eq s = None.
Proof.
  unfold Str.digits1_end. intros [_ Hend]%andb_prop.
  by apply split_eq_digits, split_eq_at_end.
Qed.

Lemma digits_head s :
  Str.drop_digits s ≠ s ->
  ∃ c r, s = String c r ∧ Str.is_digit c = true.
Proof.
  destruct s as [|c r]; simpl; [done|].
  destruct (Str.is_digit c) eqn:Hc; [eauto|done].
Qed.

(** A string that matches the pattern of negative numbers: a dash, a
    digit or a point, and no equals sign. *)
Lemma negative_number_shape w :
  Str.negative_number_like w = true ->
  ∃ c r, w = String "-" (String c r)
         ∧ (Str.is_digit c = true ∨ c = "."%char)
         ∧ Str.split_eq w = None.
Proof.
  destruct w as [|c0 rest]; simpl; [done|].
  intros [->%Ascii.eqb_eq Hnum]%andb_prop. simpl.
  apply orb_prop in Hnum as [Hint|Hfrac].
  - pose proof (split_eq_digits_end _ Hint) as ->.
    unfold Str.digits1_end in Hint. apply andb_prop in Hint as [Hne _].
    apply negb_true_iff, String.eqb_neq in Hne.
    destruct (digits_head _ Hne) as (c & r & -> & Hc). eauto 6.
  - destruct (Str.drop_digits rest) as [|d frac] eqn:Hdrop; [done|].
    apply andb_prop in Hfrac as [->%Ascii.eqb_eq Hfrac].
    assert (Str.split_eq rest = None) as ->.
    { apply split_eq_digits. rewrite Hdrop. simpl.
      by rewrite (split_eq_digits_end _ Hfrac). }
    destruct rest as [|c r]; [done|]. simpl in Hdrop.
    destruct (Str.is_digit c) eqn:Hc; [eauto 6|].
    injection Hdrop as -> ->. eauto 6.
Qed.

(** X3.  What the parser takes as an argument.  A string that does not
    start with a dash is an argument, and so is every string that looks
    like a negative number, a dash before digits with an optional decimal
    point: the parser has no option that looks like one.  So a negative
    value can follow [-t] or [-psc]; nothing bounds it. *)
Theorem words_and_negative_numbers_are_arguments w :
  Str.startswith w "-" = false ∨ Str.negative_number_like w = true ->
  is_argument Cli.parser w.
Proof.
  intros [Hplain|Hneg].
  - destruct w as [|c rest]; [done|].
    unfold Str.startswith in Hplain. simpl in Hplain.
    destruct (ascii_dec "-" c) as [<-|Hc]; [by destruct rest|].
    split; [by intros [= ->]|]. unfold parse_optional.
    destruct (Ascii.eqb c "-") eqn:Heq; [|done].
    apply Ascii.eqb_eq in Heq. by destruct Hc.
  - destruct (negative_number_shape w Hneg) as (c & r & -> & Hc & Hsplit).
    destruct (numeral_lookup c r Hc) as [Hlookup Htuples].
    split.
    { intros [= -> ->]. by destruct Hc. }
    unfold parse_optional. rewrite Hlookup, Hsplit, Htuples, Hneg. done.
Qed.

Lemma words_and_negative_numbers_are_arguments_witness :
  Str.negative_number_like "-4" = true ∧ is_argument Cli.parser "-4".
Proof.
  split; [reflexivity|].
  apply words_and_negative_numbers_are_arguments. right. reflexivity.
Defined.

Section Runs.

Variable int : string -> option Z.
Variable float : string -> option pyfloat.

#[local] Abbreviation parse_args := (Argparse.parse_args int float Cli.parser).
#[local] Abbreviation consume := (consume int float Cli.parser).

Lemma classified_ok args toks :
  classify Cli.parser args = Parsed toks ->
  Forall (token_ok Cli.parser (λ a, a ∈ Cli.parser)) toks.
Proof.
  intros Hcl. eapply classify_ok; [|exact Hcl].
  intros arg a o e _ Hopt%parse_optional_elem.
  by apply option_string_actions_elem in Hopt as [? _].
Qed.

(** A command line that parses has no ["--"]. *)
Lemma parsed_no_dash args nsp :
  parse_args args = Parsed nsp -> "--" ∉ args.
Proof.
  intros (toks & st & Hcl & Hrun & _ & Hex & _)%parsed_run Hdash.
  apply (consume_dash int float Cli.parser parser_flags_long toks
           (initial_state Cli.parser) st); [|exact Hrun| |exact Hex].
  - eapply token_ok_weaken, classified_ok. exact Hcl.
  - by apply (classify_dash Cli.parser args).
Qed.

(** In a command line that parses, the actions seen are those of the
    options supplied. *)
Lemma parsed_seen args toks st nsp d :
  parse_args args = Parsed nsp ->
  classify Cli.parser args = Parsed toks ->
  consume toks (initial_state Cli.parser) = Parsed st ->
  d ∈ seen st ↔ supplied Cli.parser d args.
Proof.
  intros Hp Hcl Hrun. split.
  - by apply (consume_supplied int float Cli.parser parser_flags_long
                args toks st).
  - intros (arg & Hin & a & o & e & Hopt & <-).
    apply (consume_sees int float Cli.parser parser_flags_long toks
             (initial_state Cli.parser) st arg a o e); [|exact Hrun|].
    + eapply token_ok_weaken, classified_ok. exact Hcl.
    + apply (classify_option Cli.parser args); [exact Hcl| |exact Hin|exact Hopt].
      by eapply parsed_no_dash.
Qed.

Lemma classify_argument w :
  is_argument Cli.parser w -> classify Cli.parser [w] = Parsed [(w, PatA)].
Proof.
  intros [Hne Hopt].
  by apply (classify_cons Cli.parser w [] None []).
Qed.

Lemma missing_required_extra w st l :
  missing_required (add_extra w st) l = missing_required st l.
Proof. done. Qed.

(** X1.  The parser takes no positional arguments: a command line that
    parses, followed by one more string that is an argument and not an
    option, is rejected, and the error names exactly that string as
    unrecognized. *)
Theorem stray_argument_rejected args nsp w :
  parse_args args = Parsed nsp ->
  is_argument Cli.parser w ->
  parse_args (args ++ [w]) = ParseError (UnrecognizedArguments [w]).
Proof.
  intros Hp Hw. pose proof (parsed_no_dash _ _ Hp) as Hdash.
  destruct (parsed_run int float _ _ Hp)
    as (toks & st & Hcl & Hrun & Hm & Hex & _).
  pose proof (classify_app Cli.parser args [w] toks [(w, PatA)] Hdash Hcl
                (classify_argument w Hw)) as Hcl'.
  assert (consume (toks ++ [(w, PatA)]) (initial_state Cli.parser)
          = Parsed (add_extra w st)) as Hrun'.
  { rewrite (consume_app int float Cli.parser parser_flags_long toks _ _ st);
      [done| |done].
    eapply token_ok_weaken, classified_ok. exact Hcl. }
  rewrite (parse_args_consumed int float Cli.parser
             (parser_string_defaults int float) _ _ _ Hcl' Hrun').
  rewrite missing_required_extra, Hm. simpl. by rewrite Hex.
Qed.

Lemma get_value_no_exit a v : get_value int float a v ≠ HelpExit.
Proof. unfold get_value. repeat case_match; done. Qed.

(** The loop at a [store] option followed by its argument. *)
Lemma consume_store a ty o v st :
  kind a = Store ty -> v ≠ "--" ->
  consume [(o, PatO (Some a, o, None)); (v, PatA)] st
  = (x ← get_value int float a v;
     mret (setattr (dest a) x (mark_seen a st))).
Proof.
  intros Hk Hv. simpl. rewrite Hk. simpl.
  unfold Argparse.take_action, get_values. simpl.
  destruct (String.eqb v "--") eqn:Heq.
  { by apply String.eqb_eq in Heq. }
  rewrite Hk. by destruct (get_value int float a v).
Qed.

(** X2.  The last occurrence of an option decides.  A command line that
    parses, followed by an option string of a [store] action and an
    argument, parses exactly when the action's converter accepts the
    argument; the namespace is the one before with the action's attribute
    set to the converted value, whatever it held.  When the converter
    refuses the argument the error is the converter's. *)
Theorem appended_option_overrides args nsp a ty o v :
  parse_args args = Parsed nsp ->
  a ∈ Cli.parser -> kind a = Store ty -> o ∈ option_strings a ->
  is_argument Cli.parser v ->
  parse_args (args ++ [o; v])
  = (x ← get_value int float a v; mret (<[dest a := x]> nsp)).
Proof.
  intros Hp Ha Hk Ho [Hv Hvopt].
  pose proof (parsed_no_dash _ _ Hp) as Hdash.
  destruct (parsed_run int float _ _ Hp)
    as (toks & st & Hcl & Hrun & Hm & Hex & <-).
  destruct (parser_option_exact a o Ha Ho) as [Hone Hoopt].
  pose proof (classify_cons Cli.parser o [v] _ _ Hone Hoopt
                (classify_argument v (conj Hv Hvopt))) as Hov.
  pose proof (classify_app Cli.parser args [o; v] toks _ Hdash Hcl Hov)
    as Hcl'.
  assert (consume (toks ++ [(o, PatO (Some a, o, None)); (v, PatA)])
            (initial_state Cli.parser)
          = (x ← get_value int float a v;
             mret (setattr (dest a) x (mark_seen a st)))) as Hrun'.
  { rewrite (consume_app int float Cli.parser parser_flags_long toks _ _ st);
      [by apply consume_store with ty| |done].
    eapply token_ok_weaken, classified_ok. exact Hcl. }
  destruct (get_value int float a v) as [x| |e] eqn:Hval; simpl in *.
  - rewrite (parse_args_consumed int float Cli.parser
               (parser_string_defaults int float) _ _ _ Hcl' Hrun').
    rewrite (missing_required_mono st); [simpl; by rewrite Hex| |done].
    simpl. by apply union_subseteq_r'.
  - by apply get_value_no_exit in Hval.
  - by apply (parse_args_loop_error int float Cli.parser _ _ _ Hcl').
Qed.

Lemma flag_kind a :
  a ∈ Cli.parser -> dest a ∈ Cli.flags -> kind a = StoreTrue.
Proof.
  unfold Cli.parser, Cli.flags. intros Hin Hd.
  repeat (apply elem_of_cons in Hin as [->|Hin];
          [first [done
                 | exfalso; simpl in Hd;
                   repeat (apply elem_of_cons in Hd as [Hd|Hd]; [discriminate Hd|]);
                   by apply elem_of_nil in Hd]|]).
  by apply elem_of_nil in Hin.
Qed.

(** X4.  The four flags mirror the command line.  After a successful
    parse each of [supermatrix_only], [gene_trees_only], [nt] and
    [busco_version_3] is [True] when an argument string supplies its
    option, and [False] when none does. *)
Theorem flags_reflect_command_line args nsp d :
  parse_args args = Parsed nsp ->
  d ∈ Cli.flags ->
  (supplied Cli.parser d args -> nsp !! d = Some (PBool true))
  ∧ (¬ supplied Cli.parser d args -> nsp !! d = Some (PBool false)).
Proof.
  intros Hp Hd.
  destruct (parsed_run int float _ _ Hp)
    as (toks & st & Hcl & Hrun & _ & _ & <-).
  pose proof (parsed_seen args toks st _ d Hp Hcl Hrun) as Hseen.
  split.
  - intros Hsup%Hseen. revert Hsup.
    apply (consume_inv int float Cli.parser parser_flags_long
             (λ a, a ∈ Cli.parser)
             (λ st, d ∈ seen st -> ns st !! d = Some (PBool true)))
      with toks (initial_state Cli.parser); try done.
    + intros a l st1 st2 Ha IH (v & -> & Hv & _)%take_action_parsed. simpl.
      destruct (decide (dest a = d)) as [<-|Hne].
      * intros _. rewrite Hv by by apply flag_kind.
        by rewrite lookup_insert_eq.
      * intros [Hd'%elem_of_singleton|Hd']%elem_of_union; [done|].
        rewrite lookup_insert_ne by done. by apply IH.
    + by apply classified_ok with args.
  - intros Hnot.
    destruct (consume_supplied int float Cli.parser parser_flags_long
                args toks st Hcl Hrun) as [_ Hdef].
    rewrite Hdef by (by rewrite Hseen).
    unfold Cli.flags in Hd.
    repeat (apply elem_of_cons in Hd as [->|Hd]; [reflexivity|]).
    by apply elem_of_nil in Hd.
Qed.

(** What an action stores, given the strings the loop hands it. *)
Lemma take_action_typed a l st st' :
  match kind a with Store _ => ∃ v, l = [v] | _ => l = [] end ->
  take_action int float a l st = Parsed st' ->
  ∃ x, st' = setattr (dest a) x (mark_seen a st)
       ∧ match kind a with
         | Store ty => has_type ty x
         | StoreTrue => x = PBool true
         | Help => False
         end.
Proof.
  unfold take_action, get_values. destruct (kind a) as [ty| |] eqn:Hk.
  - intros [v ->]. simpl. destruct (String.eqb v "--"); simpl.
    { intros [= <-]. eexists. split; [done|]. by destruct ty. }
    unfold get_value. rewrite Hk.
    destruct ty; simpl.
    + intros [= <-]. by eexists.
    + destruct (int v); simpl; [|done]. intros [= <-]. by eexists.
    + destruct (float v); simpl; [|done]. intros [= <-]. by eexists.
  - intros ->. simpl. intros [= <-]. by eexists.
  - intros ->. simpl. done.
Qed.

Lemma optional_defaults_typed a :
  a ∈ Cli.parser -> required a = false ->
  attribute_ok a (initial_namespace Cli.parser).
Proof.
  unfold Cli.parser. intros Hin Hreq.
  repeat (apply elem_of_cons in Hin as [->|Hin];
          [first [discriminate Hreq | by eexists | done]|]).
  by apply elem_of_nil in Hin.
Qed.

Lemma initial_attributes : dom (initial_namespace Cli.parser) = Cli.attributes.
Proof. reflexivity. Qed.

Lemma action_attribute a :
  a ∈ Cli.parser -> kind a ≠ Help -> dest a ∈ Cli.attributes.
Proof.
  unfold Cli.parser. intros Hin Hk.
  unfold Cli.attributes.
  repeat (apply elem_of_cons in Hin as [->|Hin];
          [first [exfalso; apply Hk; reflexivity
                 | apply elem_of_list_to_set; simpl; repeat constructor]|]).
  by apply elem_of_nil in Hin.
Qed.

(** X5.  The shape of the namespace.  After a successful parse the
    namespace has exactly the eleven attributes of the parser, [psc] among
    them and no [percent_single_copy]; the attribute of every [store]
    option holds a value of the option's type ([int] for [threads],
    [float] for [psc], [str] for the others) or the empty list of an
    explicit ["--"], and the attribute of every flag holds a boolean. *)
Theorem namespace_shape args nsp :
  parse_args args = Parsed nsp ->
  dom nsp = Cli.attributes
  ∧ ∀ a, a ∈ Cli.parser -> attribute_ok a nsp.
Proof.
  intros Hp.
  destruct (parsed_run int float _ _ Hp)
    as (toks & st & Hcl & Hrun & Hm & _ & <-).
  destruct (consume_supplied int float Cli.parser parser_flags_long
              args toks st Hcl Hrun) as [_ Hdef].
  assert (dom (ns st) = Cli.attributes
          ∧ ∀ a, a ∈ Cli.parser -> dest a ∈ seen st -> attribute_ok a (ns st))
    as [Hdom Hseen].
  { apply (consume_inv_args int float Cli.parser parser_flags_long
             (λ a, a ∈ Cli.parser)
             (λ st, dom (ns st) = Cli.attributes
                    ∧ ∀ a, a ∈ Cli.parser -> dest a ∈ seen st ->
                           attribute_ok a (ns st)))
      with toks (initial_state Cli.parser); try done.
    - intros a l st1 st2 Ha [Hdom IH] Hl Htake.
      destruct (take_action_typed a l st1 st2 Hl Htake) as (x & -> & Hx).
      simpl. split.
      + rewrite dom_insert_L, Hdom.
        assert (dest a ∈ Cli.attributes) as Hin.
        { apply action_attribute; [done|]. intros Hk. by rewrite Hk in Hx. }
        apply set_eq. intros y. rewrite elem_of_union, elem_of_singleton.
        split; [by intros [->|?]|by right].
      + intros b Hb Hbseen. unfold attribute_ok.
        destruct (decide (dest b = dest a)) as [Heq|Hne].
        * apply parser_dest_inj in Heq as ->; [|done..].
          rewrite lookup_insert_eq.
          destruct (kind a); [by eexists| |done].
          subst x. by eexists.
        * apply elem_of_union in Hbseen as [Hbseen%elem_of_singleton|Hbseen];
            [done|].
          specialize (IH b Hb Hbseen). unfold attribute_ok in IH.
          by rewrite lookup_insert_ne.
    - by apply classified_ok with args. }
  split; [done|]. intros a Ha.
  destruct (decide (dest a ∈ seen st)) as [Hin|Hnot]; [by apply Hseen|].
  destruct (required a) eqn:Hreq.
  { destruct Hnot. by eapply missing_required_nil. }
  pose proof (optional_defaults_typed a Ha Hreq) as Hok.
  unfold attribute_ok in *. by rewrite (Hdef _ Hnot).
Qed.

(** X6.  An ambiguous abbreviation rejects the command line.  When
    [_parse_optional] reports an error for a string, and the only error it
    reports is an ambiguous abbreviation, a command line with that string
    before any ["--"] is rejected, wherever the string stands: the strings
    are classified before any action is taken, so not even a preceding
    [-h] is acted upon. *)
Theorem ambiguous_abbreviation_rejected pre arg post e :
  "--" ∉ pre -> arg ≠ "--" ->
  parse_optional Cli.parser arg = ParseError e ->
  ∃ e', parse_args (pre ++ arg :: post) = ParseError e'.
Proof.
  intros Hdash Hne Hopt.
  destruct (classify_error Cli.parser pre arg post e Hdash Hopt Hne)
    as [e' Hcl].
  exists e'. unfold Argparse.parse_args, parse_known_args. by rewrite Hcl.
Qed.

Lemma with_explicit_store a ty o v :
  kind a = Store ty ->
  with_explicit Cli.parser a o v = Parsed ([(a, [v])], None).
Proof. intros Hk. destruct v; simpl; by rewrite Hk. Qed.

(** An option string of a [store] action, an equals sign and a value,
    in one string, is that option with the value as explicit argument. *)
Lemma parser_option_equals a ty o v :
  a ∈ Cli.parser -> kind a = Store ty -> o ∈ option_strings a ->
  o +:+ "=" +:+ v ≠ "--"
  ∧ parse_optional Cli.parser (o +:+ "=" +:+ v)
    = Parsed (Some (Some a, o, Some v)).
Proof.
  unfold Cli.parser. intros Hin Hk Ho.
  repeat (apply elem_of_cons in Hin as [->|Hin];
          [first [discriminate Hk
                 | simpl in Ho;
                   repeat (apply elem_of_cons in Ho as [->|Ho]; [by split|]);
                   by apply elem_of_nil in Ho]|]).
  by apply elem_of_nil in Hin.
Qed.

(** X7.  [--option=value] is [--option value], also for a value that
    starts with a dash.  A command line that parses, followed by one
    string made of an option string of a [store] action, an equals sign
    and a value other than ["--"], parses exactly when the converter
    accepts the value, with the action's attribute set to the converted
    value. *)
Theorem explicit_argument_form args nsp a ty o v :
  parse_args args = Parsed nsp ->
  a ∈ Cli.parser -> kind a = Store ty -> o ∈ option_strings a ->
  v ≠ "--" ->
  parse_args (args ++ [o +:+ "=" +:+ v])
  = (x ← get_value int float a v; mret (<[dest a := x]> nsp)).
Proof.
  intros Hp Ha Hk Ho Hv.
  pose proof (parsed_no_dash _ _ Hp) as Hdash.
  destruct (parsed_run int float _ _ Hp)
    as (toks & st & Hcl & Hrun & Hm & Hex & <-).
  destruct (parser_option_equals a ty o v Ha Hk Ho) as [Hne Hopt].
  pose proof (classify_cons Cli.parser _ [] _ [] Hne Hopt eq_refl) as Hone.
  pose proof (classify_app Cli.parser args _ toks _ Hdash Hcl Hone) as Hcl'.
  assert (consume (toks ++ [(o +:+ "=" +:+ v, PatO (Some a, o, Some v))])
            (initial_state Cli.parser)
          = (x ← get_value int float a v;
             mret (setattr (dest a) x (mark_seen a st)))) as Hrun'.
  { rewrite (consume_app int float Cli.parser parser_flags_long toks _ _ st);
      [| |done].
    - simpl. rewrite (with_explicit_store a ty o v Hk). simpl.
      unfold Argparse.take_action, get_values. simpl.
      destruct (String.eqb v "--") eqn:Heq.
      { by apply String.eqb_eq in Heq. }
      rewrite Hk. by destruct (get_value int float a v).
    - eapply token_ok_weaken, classified_ok. exact Hcl. }
  destruct (get_value int float a v) as [x| |e] eqn:Hval; simpl in *.
  - rewrite (parse_args_consumed int float Cli.parser
               (parser_string_defaults int float) _ _ _ Hcl' Hrun').
    rewrite (missing_required_mono st); [simpl; by rewrite Hex| |done].
    simpl. by apply union_subseteq_r'.
  - by apply get_value_no_exit in Hval.
  - by apply (parse_args_loop_error int float Cli.parser _ _ _ Hcl').
Qed.

End Runs.

Lemma stray_argument_rejected_witness :
  Argparse.parse_args Decimal.int Decimal.float Cli.parser
    ["-i"; "busco_runs"; "-o"; "results"; "-t"; "4"] = Parsed Script.sample_args
  ∧ is_argument Cli.parser "extra"
  ∧ Argparse.parse_args Decimal.int Decimal.float Cli.parser
      (["-i"; "busco_runs"; "-o"; "results"; "-t"; "4"] ++ ["extra"])
    = ParseError (UnrecognizedArguments ["extra"]).
Proof.
  assert (is_argument Cli.parser "extra") as Hw by (by split).
  split_and!; [reflexivity|exact Hw|].
  exact (stray_argument_rejected Decimal.int Decimal.float
           ["-i"; "busco_runs"; "-o"; "results"; "-t"; "4"] Script.sample_args "extra" eq_refl Hw).
Defined.

Lemma appended_option_overrides_witness :
  Argparse.parse_args Decimal.int Decimal.float Cli.parser
    ["-i"; "busco_runs"; "-o"; "results"; "-t"; "4"] = Parsed Script.sample_args
  ∧ Argparse.parse_args Decimal.int Decimal.float Cli.parser
      (["-i"; "busco_runs"; "-o"; "results"; "-t"; "4"] ++ ["--threads"; "-8"])
    = (x ← get_value Decimal.int Decimal.float
             (add_store ["-t"; "--threads"] TInt true None PNone) "-8";
       mret (<["threads" := x]> Script.sample_args)).
Proof.
  split; [reflexivity|].
  apply (appended_option_overrides Decimal.int Decimal.float
           ["-i"; "busco_runs"; "-o"; "results"; "-t"; "4"] Script.sample_args
           (add_store ["-t"; "--threads"] TInt true None PNone) TInt
           "--threads" "-8" eq_refl).
  - unfold Cli.parser. do 3 apply list_elem_of_further. apply list_elem_of_here.
  - reflexivity.
  - apply list_elem_of_further, list_elem_of_here.
  - by split.
Defined.

Lemma flags_reflect_command_line_witness :
  Argparse.parse_args Decimal.int Decimal.float Cli.parser
    ["-i"; "busco_runs"; "-o"; "results"; "-t"; "4"; "--nt"]
  = Parsed (<["nt" := PBool true]> Script.sample_args)
  ∧ supplied Cli.parser "nt" ["-i"; "busco_runs"; "-o"; "results"; "-t"; "4"; "--nt"]
  ∧ (<["nt" := PBool true]> Script.sample_args) !! "nt" = Some (PBool true).
Proof.
  assert (Argparse.parse_args Decimal.int Decimal.float Cli.parser
            ["-i"; "busco_runs"; "-o"; "results"; "-t"; "4"; "--nt"]
          = Parsed (<["nt" := PBool true]> Script.sample_args)) as Hp
    by reflexivity.
  assert (supplied Cli.parser "nt"
            ["-i"; "busco_runs"; "-o"; "results"; "-t"; "4"; "--nt"]) as Hs.
  { exists "--nt". split.
    - do 6 apply list_elem_of_further. apply list_elem_of_here.
    - exists (add_store_true ["--nt"]), "--nt", None. split; reflexivity. }
  split_and!; [exact Hp|exact Hs|].
  apply (flags_reflect_command_line Decimal.int Decimal.float _ _ "nt" Hp);
    [|exact Hs].
  unfold Cli.flags. do 2 apply list_elem_of_further. apply list_elem_of_here.
Defined.

Lemma namespace_shape_witness :
  Argparse.parse_args Decimal.int Decimal.float Cli.parser
    ["-i"; "busco_runs"; "-o"; "results"; "-t"; "4"] = Parsed Script.sample_args
  ∧ dom Script.sample_args = Cli.attributes
  ∧ ∀ a, a ∈ Cli.parser -> attribute_ok a Script.sample_args.
Proof.
  split; [reflexivity|].
  exact (namespace_shape Decimal.int Decimal.float
           ["-i"; "busco_runs"; "-o"; "results"; "-t"; "4"] Script.sample_args eq_refl).
Defined.

Lemma ambiguous_abbreviation_rejected_witness :
  "--" ∉ ["-h"] ∧ "--gene_tree" ≠ "--"
  ∧ parse_optional Cli.parser "--gene_tree"
    = ParseError (AmbiguousOption "--gene_tree"
                    ["--gene_trees_only"; "--gene_tree_program"])
  ∧ ∃ e', Argparse.parse_args Decimal.int Decimal.float Cli.parser
            (["-h"] ++ "--gene_tree" :: ["-i"; "busco_runs"]) = ParseError e'.
Proof.
  assert ("--" ∉ ["-h"]) as Hdash.
  { intros Hin. apply elem_of_cons in Hin as [Hin|Hin]; [discriminate Hin|].
    by apply elem_of_nil in Hin. }
  assert ("--gene_tree" ≠ "--") as Hne by (intros Heq; discriminate Heq).
  split_and!; [exact Hdash|exact Hne|reflexivity|].
  exact (ambiguous_abbreviation_rejected Decimal.int Decimal.float
           ["-h"] "--gene_tree" ["-i"; "busco_runs"] _ Hdash Hne eq_refl).
Defined.

Lemma explicit_argument_form_witness :
  Argparse.parse_args Decimal.int Decimal.float Cli.parser
    ["-i"; "busco_runs"; "-t"; "4"; "-o"; "out"] 
  = Parsed (<["output" := PStr "out"]> Script.sample_args)
  ∧ "-results" ≠ "--"
  ∧ Argparse.parse_args Decimal.int Decimal.float Cli.parser
      (["-i"; "busco_runs"; "-t"; "4"; "-o"; "out"] ++ ["--output" +:+ "=" +:+ "-results"])
    = (x ← get_value Decimal.int Decimal.float
             (add_store ["-o"; "--output"] TStr true None PNone) "-results";
       mret (<["output" := x]> (<["output" := PStr "out"]> Script.sample_args))).
Proof.
  assert ("-results" ≠ "--") as Hne by (intros Heq; discriminate Heq).
  split_and!; [reflexivity|exact Hne|].
  apply (explicit_argument_form Decimal.int Decimal.float
           ["-i"; "busco_runs"; "-t"; "4"; "-o"; "out"]
           (<["output" := PStr "out"]> Script.sample_args)
           (add_store ["-o"; "--output"] TStr true None PNone) TStr
           "--output" "-results" eq_refl).
  - unfold Cli.parser. do 2 apply list_elem_of_further. apply list_elem_of_here.
  - reflexivity.
  - apply list_elem_of_further, list_elem_of_here.
  - exact Hne.
Defined.

End CliRuns.

(** ** More on the script *)

Module ScriptRuns.
Import Argparse ArgparseFacts CliFacts Script ScriptFacts.


Section Runs.

Variable int : string -> option Z.
Variable float : string -> option pyfloat.
Variable abspath : string -> string.
Variable globals : gset string.

#[local] Abbreviation main := (main int float abspath globals).
#[local] Abbreviation parsed w :=
  (Argparse.parse_args int float Cli.parser (tail (sys_argv w))).



(** X9.  [main] gets past both checks exactly when the input directory
    exists and the output directory does not; it has then printed the
    three start-up messages and nothing else, and goes on.  The paths of
    the parsed command line are strings. *)
Theorem checks_pass args input output w :
  "print_message" ∈ globals ->
  parsed w = Parsed args ->
  args !! "input" = Some (PStr input) ->
  args !! "output" = Some (PStr output) ->
  ((main w).1 = Return tt
   ↔ is_directory (fs w) (abspath input) = true
     ∧ is_directory (fs w) (abspath output) = false)
  ∧ ((main w).1 = Return tt ->
     main w = (Return tt, stamp_all (startup_lines args w) w)).
Proof.
  intros Hin Hp Hi Ho.
  rewrite (main_checks int float abspath globals args input output) by done.
  destruct (is_directory (fs w) (abspath input)),
           (is_directory (fs w) (abspath output)); simpl;
    (split; [split; [try done; by intros [? ?]|try done; by intros [? ?]]
            |done]).
Qed.

(** X10.  Help first.  When the first argument is [-h] or [--help] and
    no later string is an ambiguous abbreviation (the first pass classifies
    the rest), [main] prints the help text and exits with status 0,
    whatever else the command line holds or lacks. *)
Theorem help_exits w prog h rest toks :
  sys_argv w = prog :: h :: rest ->
  h ∈ ["-h"; "--help"] ->
  classify Cli.parser rest = Parsed toks ->
  main w = (Raise (SystemExit (Some 0%Z)), write_stdout HelpText w).
Proof.
  intros Hargv Hh Hcl.
  assert (parsed w = HelpExit) as Hp.
  { rewrite Hargv. simpl.
    assert (h ≠ "--"
            ∧ parse_optional Cli.parser h
              = Parsed (Some (Some help_action, h, None))) as [Hne Hopt].
    { repeat (apply elem_of_cons in Hh as [->|Hh]; [by split|]).
      by apply elem_of_nil in Hh. }
    unfold Argparse.parse_args, parse_known_args.
    by rewrite (classify_cons Cli.parser h rest _ toks Hne Hopt Hcl). }
  unfold Script.main, mbind, M_bind, parse_args. by rewrite Hp.
Qed.

End Runs.

Lemma help_exits_witness :
  "--help" ∈ ["-h"; "--help"]
  ∧ classify Cli.parser ["-t"; "many"]
    = Parsed [ ("-t", PatO (Some (add_store ["-t"; "--threads"] TInt true None PNone),
                            "-t", None));
               ("many", PatA) ]
  ∧ Script.main Decimal.int Decimal.float (abspath_in "/data") fragment_globals
      help_world
    = (Raise (SystemExit (Some 0%Z)), write_stdout HelpText help_world).
Proof.
  assert ("--help" ∈ ["-h"; "--help"]) as Hh.
  { apply list_elem_of_further, list_elem_of_here. }
  split_and!; [exact Hh|reflexivity|].
  exact (help_exits Decimal.int Decimal.float (abspath_in "/data")
           fragment_globals help_world "BUSCO_phylogenomics.py" "--help"
           ["-t"; "many"] _ eq_refl Hh eq_refl).
Defined.


Lemma checks_pass_witness :
  is_directory (fs (sample_world {[ "/data/busco_runs" := Directory ]}))
    (abspath_in "/data" "busco_runs") = true
  ∧ is_directory (fs (sample_world {[ "/data/busco_runs" := Directory ]}))
      (abspath_in "/data" "results") = false
  ∧ (Script.main Decimal.int Decimal.float (abspath_in "/data") module_globals
       (sample_world {[ "/data/busco_runs" := Directory ]})).1 = Return tt.
Proof.
  split_and!; [reflexivity..|].
  apply (checks_pass Decimal.int Decimal.float (abspath_in "/data")
           module_globals sample_args "busco_runs" "results"
           (sample_world {[ "/data/busco_runs" := Directory ]})
           print_message_bound
           (sample_parsed {[ "/data/busco_runs" := Directory ]})
           eq_refl eq_refl).
  split; reflexivity.
Defined.

End ScriptRuns.
